(** * myshell.c: a shallow embedding and its verified properties

    The development follows the layout of [myshell.c]: the tokenizer
    ([parse_input]), the variable expander ([expand_variable]), the token
    post-processor ([process_tokens]), the built-ins
    ([execute_shell_builtin]), the launcher ([execute_command]), the
    SIGCHLD handler ([on_child_exit]), one turn of the loop of [shell]
    with the reading of its line, in the shell and in the child it
    creates, [setup_environment] and [main].

    Conventions of the model.
    - A C string is a [string]: the bytes before the terminating NUL.
    - [malloc]/[realloc]/[strdup] succeed (the source leaves the process
      on allocation failure), and [size_t]/[int] counters stay far below
      their wrap-around, so they are [nat].
    - Every store into an array of fixed or tracked capacity is checked
      against that capacity; a store outside it is undefined behaviour in
      C and ends the run with [Undefined], naming the array.
    - The system is a parameter or an explicit part of the state: the
      file system answers [chdir], the kernel keeps the table of
      children that [fork] and [waitpid] act on, and the answers to the
      attempts to write log.txt are given from outside. *)

From Stdlib Require Import ZArith Ascii String.
From Equations Require Import Equations.
From stdpp Require Import gmap strings list pretty.

(** ** Outcome of a run *)

Inductive outcome (A : Type) : Type :=
| Ok (a : A)
| Undefined (array : string).
Arguments Ok {A} a.
Arguments Undefined {A} array.

Definition obind {A B} (m : outcome A) (k : A -> outcome B) : outcome B :=
  match m with
  | Ok a => k a
  | Undefined w => Undefined w
  end.

Notation "'do' x <- m ; k" := (obind m (fun x => k))
  (at level 10, x name, m at level 100, k at level 200).

(** ** Constants and characters of the source *)

Definition MAX_LINE : nat := 1024.
Definition INIT_TOKENS : nat := 100.
Arguments MAX_LINE : simpl never.
Arguments INIT_TOKENS : simpl never.

Definition dquote : ascii := ascii_of_nat 34.
Definition space : ascii := ascii_of_nat 32.
Definition tab : ascii := ascii_of_nat 9.
Definition dollar : ascii := ascii_of_nat 36.
Definition underscore : ascii := ascii_of_nat 95.
Definition equals : ascii := ascii_of_nat 61.
Definition tilde : ascii := ascii_of_nat 126.

Definition is_blank (c : ascii) : bool :=
  Ascii.eqb c space || Ascii.eqb c tab.

(** [isalnum] of <ctype.h> in the "C" locale (the program never calls
    [setlocale]): the digits and the letters of ASCII; no byte above 127
    is alphanumeric. *)
Definition isalnum (c : ascii) : bool :=
  let n := nat_of_ascii c in
  ((48 <=? n) && (n <=? 57)) || ((65 <=? n) && (n <=? 90))
  || ((97 <=? n) && (n <=? 122)).

Definition is_ident (c : ascii) : bool :=
  Ascii.eqb c underscore || isalnum c.

(** [s +:+ c]: the string [s] followed by the character [c]. *)
Definition snoc (s : string) (c : ascii) : string := s +:+ String c "".

(** ** Arrays of tokens with a tracked capacity *)

(** [array[index++] = t] for an array of [cap] slots holding [toks]. *)
Definition store_token (array : string) (toks : list string) (cap : nat)
  (t : string) : outcome (list string) :=
  if length toks <? cap then Ok (toks ++ [t]) else Undefined array.

(** [array[index] = NULL], the end marker. *)
Definition store_sentinel (array : string) (toks : list string) (cap : nat)
  : outcome (list string) :=
  if length toks <? cap then Ok toks else Undefined array.

(** ** [parse_input] (lines 163-209) *)

Record tokenizer := {
  tokens : list string;      (* tokens[0 .. token_index-1] *)
  tokens_cap : nat;
  current_token : string;    (* current_token[0 .. ct_index-1] *)
  in_quotes : bool
}.

Definition tokenizer_init : tokenizer :=
  {| tokens := []; tokens_cap := INIT_TOKENS;
     current_token := ""; in_quotes := false |}.

(** Lines 184-186 and 204-205: terminate [current_token] and keep a copy. *)
Definition finish_token (st : tokenizer) : outcome tokenizer :=
  if String.length (current_token st) <? MAX_LINE then
    do toks <- store_token "tokens" (tokens st) (tokens_cap st)
                 (current_token st);
    Ok {| tokens := toks; tokens_cap := tokens_cap st;
          current_token := ""; in_quotes := in_quotes st |}
  else Undefined "current_token".

(** Lines 188-195: grow the array once it is full. *)
Definition grow_tokens (st : tokenizer) : tokenizer :=
  if tokens_cap st <=? length (tokens st) then
    {| tokens := tokens st; tokens_cap := tokens_cap st + INIT_TOKENS;
       current_token := current_token st; in_quotes := in_quotes st |}
  else st.

(** One turn of the loop of lines 176-201. *)
Definition parse_step (st : tokenizer) (c : ascii) : outcome tokenizer :=
  if Ascii.eqb c dquote then
    Ok {| tokens := tokens st; tokens_cap := tokens_cap st;
          current_token := current_token st;
          in_quotes := negb (in_quotes st) |}
  else if is_blank c && negb (in_quotes st) then
    if 0 <? String.length (current_token st) then
      do st' <- finish_token st; Ok (grow_tokens st')
    else Ok st
  else
    if String.length (current_token st) <? MAX_LINE then
      Ok {| tokens := tokens st; tokens_cap := tokens_cap st;
            current_token := snoc (current_token st) c;
            in_quotes := in_quotes st |}
    else Undefined "current_token".

Fixpoint parse_loop (st : tokenizer) (input : string) : outcome tokenizer :=
  match input with
  | "" => Ok st
  | String c rest => do st' <- parse_step st c; parse_loop st' rest
  end.

Definition parse_input (input : string) : outcome (list string) :=
  do st <- parse_loop tokenizer_init input;
  do st' <- (if 0 <? String.length (current_token st)
             then finish_token st else Ok st);
  store_sentinel "tokens" (tokens st') (tokens_cap st').

Definition line_abcd : string :=
  "a " +:+ String dquote ("b c" +:+ String dquote " d").

(** *** The tokenizer without its arrays

    [lex q cur input] is the loop of [parse_input] on values alone: the
    tokens completed while reading [input], and the token still open at
    the end, starting inside quotes or not ([q]) with [cur] open. *)

Fixpoint lex (q : bool) (cur input : string) : list string * string :=
  match input with
  | "" => ([], cur)
  | String c rest =>
      if Ascii.eqb c dquote then lex (negb q) cur rest
      else if is_blank c && negb q then
        if 0 <? String.length cur then
          let '(done, open) := lex q "" rest in (cur :: done, open)
        else lex q cur rest
      else lex q (snoc cur c) rest
  end.

Definition close_token (open : string) : list string :=
  if 0 <? String.length open then [open] else [].

Definition tokenize (input : string) : list string :=
  let '(done, open) := lex false "" input in done ++ close_token open.

(** The array of tokens has room for the next store, and grows in steps
    of [INIT_TOKENS]. *)
Definition cap_ok (st : tokenizer) : Prop :=
  exists k, tokens_cap st = INIT_TOKENS * S k
            /\ INIT_TOKENS * k <= length (tokens st) < INIT_TOKENS * S k.

(** The line of [n+1] one-letter words [a a ... a]. *)
Fixpoint words_a (n : nat) : string :=
  match n with
  | 0 => "a"
  | S m => "a " +:+ words_a m
  end.

(** Occurrence of a character in a string. *)
Fixpoint occurs (c : ascii) (s : string) : bool :=
  match s with
  | "" => false
  | String d rest => Ascii.eqb d c || occurs c rest
  end.

(** ** The environment: [getenv] and [setenv] of <stdlib.h>

    The bindings are a finite map from names to values.  [getenv] finds
    no binding for the empty name; [setenv] refuses the empty name and a
    name holding ['='] (error EINVAL) and otherwise overwrites. *)

Definition getenv (env : gmap string string) (name : string) : option string :=
  if String.eqb name "" then None else env !! name.

Definition setenv (env : gmap string string) (name value : string)
  : option (gmap string string) :=
  if String.eqb name "" || occurs equals name then None
  else Some (<[name := value]> env).

(** ** [expand_variable] (lines 215-269) *)

(** [result] with its allocated size; [len] is the length of [data]. *)
Record buffer := { data : string; capacity : nat }.

Definition VARNAME_SIZE : nat := 128.
Arguments VARNAME_SIZE : simpl never.

(** Lines 232-235: copy the identifier characters into [varname] and
    terminate it; each store is into [char varname[128]]. *)
Fixpoint scan_name (s varname : string) : outcome string :=
  match s with
  | String c rest =>
      if is_ident c then
        if String.length varname <? VARNAME_SIZE
        then scan_name rest (snoc varname c)
        else Undefined "varname"
      else
        if String.length varname <? VARNAME_SIZE
        then Ok varname else Undefined "varname"
  | "" =>
      if String.length varname <? VARNAME_SIZE
      then Ok varname else Undefined "varname"
  end.

(** [token + n]: the string after its first [n] characters. *)
Fixpoint string_drop (n : nat) (s : string) : string :=
  match n, s with
  | S m, String _ rest => string_drop m rest
  | _, _ => s
  end.

(** Lines 242-249: [while (len + vlen + 1 > capacity) capacity *= 2]; at
    most [need] doublings are ever taken from a capacity above zero. *)
Fixpoint double_until (fuel capacity need : nat) : nat :=
  match fuel with
  | 0 => capacity
  | S fuel' =>
      if capacity <? need then double_until fuel' (2 * capacity) need
      else capacity
  end.

(** Lines 242-252: make room, then [strcat(result, value)]. *)
Definition append_value (result : buffer) (value : string) : outcome buffer :=
  let need := String.length (data result) + String.length value + 1 in
  let cap := double_until need (capacity result) need in
  if need <=? cap
  then Ok {| data := data result +:+ value; capacity := cap |}
  else Undefined "result".

(** Lines 255-265: make room once, then store the character and the
    terminator. *)
Definition append_char (result : buffer) (c : ascii) : outcome buffer :=
  let len := String.length (data result) in
  let cap := if capacity result <? len + 2
             then 2 * capacity result else capacity result in
  if len + 2 <=? cap
  then Ok {| data := snoc (data result) c; capacity := cap |}
  else Undefined "result".

Lemma string_drop_length n s : String.length (string_drop n s) <= String.length s.
Proof.
  revert s; induction n as [|n IH]; intros [|c s]; simpl; auto.
Qed.

(** The loop of lines 226-267.  After a ['$'] the index moves past the
    characters copied into [varname]. *)
Equations? expand_loop (env : gmap string string) (token : string)
  (result : buffer) : outcome buffer by wf (String.length token) lt :=
expand_loop env "" result := Ok result;
expand_loop env (String c rest) result with Ascii.eqb c dollar := {
  | true =>
      do varname <- scan_name rest "";
      do result' <- append_value result (default "" (getenv env varname));
      expand_loop env (string_drop (String.length varname) rest) result'
  | false =>
      do result' <- append_char result c;
      expand_loop env rest result' }.
Proof.
  all: simpl; try lia.
  pose proof (string_drop_length (String.length varname) rest). lia.
Qed.

Definition expand_variable (env : gmap string string) (token : string)
  : outcome string :=
  do result <- expand_loop env token {| data := ""; capacity := 1024 |};
  Ok (data result).

Definition env_home : gmap string string := {[ "HOME" := "/root" ]}.

(** *** The expander on values alone *)

(** The longest prefix of identifier characters. *)
Fixpoint name_of (s : string) : string :=
  match s with
  | String c rest => if is_ident c then String c (name_of rest) else ""
  | "" => ""
  end.

Definition value_of (env : gmap string string) (name : string) : string :=
  default "" (getenv env name).

Equations? expand (env : gmap string string) (token : string) : string
  by wf (String.length token) lt :=
expand env "" := "";
expand env (String c rest) with Ascii.eqb c dollar := {
  | true =>
      value_of env (name_of rest)
      +:+ expand env (string_drop (String.length (name_of rest)) rest)
  | false => String c (expand env rest) }.
Proof.
  all: simpl; try lia.
  pose proof (string_drop_length (String.length (name_of rest)) rest). lia.
Qed.

(** Every name after a ['$'] fits [varname] together with its
    terminator. *)
Equations? names_fit (token : string) : bool by wf (String.length token) lt :=
names_fit "" := true;
names_fit (String c rest) with Ascii.eqb c dollar := {
  | true =>
      (String.length (name_of rest) <? VARNAME_SIZE)
      && names_fit (string_drop (String.length (name_of rest)) rest)
  | false => names_fit rest }.
Proof.
  all: simpl; try lia.
  pose proof (string_drop_length (String.length (name_of rest)) rest). lia.
Qed.

(** The terminator of [result] is inside the allocation. *)
Definition buf_ok (b : buffer) : Prop :=
  String.length (data b) + 1 <= capacity b.

(** ** [process_tokens] (lines 275-324) *)

(** The first word of a string that starts with no delimiter. *)
Fixpoint word_of (s : string) : string :=
  match s with
  | String c rest => if is_blank c then "" else String c (word_of rest)
  | "" => ""
  end.

(** [strtok(_, " \t")] of <string.h>, with its saved position made
    explicit: skip the delimiters, then return the word up to the next
    delimiter and the position after that delimiter. *)
Fixpoint strtok (save : string) : option (string * string) :=
  match save with
  | "" => None
  | String c rest =>
      if is_blank c then strtok rest
      else Some (word_of save,
                 string_drop (S (String.length (word_of save))) save)
  end.

Lemma strtok_shorter save : forall word save',
  strtok save = Some (word, save') -> String.length save' < String.length save.
Proof.
  induction save as [|c rest IH]; intros word save' H; simpl in H; [discriminate|].
  destruct (is_blank c).
  - specialize (IH _ _ H). simpl. lia.
  - injection H as _ <-.
    pose proof (string_drop_length (S (String.length (word_of rest))) rest).
    simpl in *. lia.
Qed.

(** [new_tokens] with [count] its length, and [newSize]. *)
Record token_array := { new_tokens : list string; newSize : nat }.

(** Lines 295-304 and 311-319: grow when full, then store. *)
Definition push_token (arr : token_array) (t : string) : outcome token_array :=
  let size := if newSize arr <=? length (new_tokens arr)
              then newSize arr + INIT_TOKENS else newSize arr in
  do toks <- store_token "new_tokens" (new_tokens arr) size t;
  Ok {| new_tokens := toks; newSize := size |}.

Definition inspect {A} (a : A) : {b | a = b} := exist _ a eq_refl.

(** Lines 292-306: one store for each word [strtok] returns. *)
Equations? split_loop (save : string) (arr : token_array)
  : outcome token_array by wf (String.length save) lt :=
split_loop save arr with inspect (strtok save) := {
  | exist _ None _ => Ok arr
  | exist _ (Some (word, save')) Hnext =>
      do arr' <- push_token arr word; split_loop save' arr' }.
Proof. eapply strtok_shorter, Hnext. Qed.

Definition has_blank (s : string) : bool := occurs space s || occurs tab s.

Fixpoint process_loop (env : gmap string string) (tokens : list string)
  (arr : token_array) : outcome token_array :=
  match tokens with
  | [] => Ok arr
  | token :: rest =>
      do expanded <- expand_variable env token;
      do arr' <- (if has_blank expanded then split_loop expanded arr
                  else push_token arr expanded);
      process_loop env rest arr'
  end.

Definition process_tokens (env : gmap string string) (tokens : list string)
  : outcome (list string) :=
  do arr <- process_loop env tokens
              {| new_tokens := []; newSize := INIT_TOKENS |};
  store_sentinel "new_tokens" (new_tokens arr) (newSize arr).

Definition env_list : gmap string string := {[ "LIST" := "one two" ]}.

(** *** The post-processor on values alone *)

(** The words [strtok] returns one after the other. *)
Equations? words (s : string) : list string by wf (String.length s) lt :=
words s with inspect (strtok s) := {
  | exist _ None _ => []
  | exist _ (Some (word, save')) Hnext => word :: words save' }.
Proof. eapply strtok_shorter, Hnext. Qed.

(** What one token contributes to the argument list. *)
Definition post_process (env : gmap string string) (token : string)
  : list string :=
  let expanded := expand env token in
  if has_blank expanded then words expanded else [expanded].

(** [new_tokens] grows in steps of [INIT_TOKENS], just before the store
    that needs the room. *)
Definition arr_ok (arr : token_array) : Prop :=
  exists k, newSize arr = INIT_TOKENS * S k
    /\ INIT_TOKENS * k <= pred (length (new_tokens arr)) < INIT_TOKENS * S k.

(** ** The process and the system it runs on *)

(** What the process does that can be seen from outside, in program
    order. *)
Inductive event : Type :=
| Stdout (text : string)              (* printf *)
| Stderr (text : string)              (* fprintf(stderr, ...) *)
| Perror (prefix : string) (err : Z)  (* perror: prefix and the text of errno, on stderr *)
| Chdir (path : string)               (* chdir(path) was called *)
| Waitpid (pid : Z) (options : Z).    (* waitpid(pid, &status, options) was called *)

(** A child in the kernel's table: the status a wait for it reports, and
    whether it has terminated yet. *)
Record child := { pid : positive; wstatus : Z; ended : bool }.

Record shell_state := {
  environment : gmap string string;
  cwd : string;
  errno : Z;
  children : list child;
  log_opens : nat;          (* how often log.txt was opened so far *)
  log : list string;        (* what was appended to log.txt *)
  trace : list event
}.

Definition set_environment (env : gmap string string) (st : shell_state) :=
  {| environment := env; cwd := cwd st; errno := errno st;
     children := children st; log_opens := log_opens st; log := log st;
     trace := trace st |}.

Definition set_cwd (dir : string) (st : shell_state) :=
  {| environment := environment st; cwd := dir; errno := errno st;
     children := children st; log_opens := log_opens st; log := log st;
     trace := trace st |}.

Definition set_errno (err : Z) (st : shell_state) :=
  {| environment := environment st; cwd := cwd st; errno := err;
     children := children st; log_opens := log_opens st; log := log st;
     trace := trace st |}.

Definition set_children (cs : list child) (st : shell_state) :=
  {| environment := environment st; cwd := cwd st; errno := errno st;
     children := cs; log_opens := log_opens st; log := log st;
     trace := trace st |}.

Definition set_log (opens : nat) (lines : list string) (st : shell_state) :=
  {| environment := environment st; cwd := cwd st; errno := errno st;
     children := children st; log_opens := opens; log := lines;
     trace := trace st |}.

Definition emit (ev : event) (st : shell_state) :=
  {| environment := environment st; cwd := cwd st; errno := errno st;
     children := children st; log_opens := log_opens st; log := log st;
     trace := trace st ++ [ev] |}.

(** [perror(prefix)] reports the current [errno].  The call itself is
    taken to leave [errno] as it is; where writing to standard error
    fails it may overwrite it, so the number a later [perror] reports
    without a failed call of its own before it (the one of line 348) is
    left open in every statement. *)
Definition perror (prefix : string) (st : shell_state) : shell_state :=
  emit (Perror prefix (errno st)) st.

Definition EINVAL : Z := 22.
Definition ECHILD : Z := 10.
Definition WNOHANG : Z := 1.

Definition newline : string := String (ascii_of_nat 10) "".

(** The first [n] characters of a string: what [snprintf] and [strncpy]
    leave in a buffer of [n+1] bytes. *)
Fixpoint string_take (n : nat) (s : string) : string :=
  match n, s with
  | S m, String c rest => String c (string_take m rest)
  | _, _ => ""
  end.

(** [strchr(s, '=')]: the text before the first ['='] and the text after
    it. *)
Fixpoint split_equals (s : string) : option (string * string) :=
  match s with
  | "" => None
  | String c rest =>
      if Ascii.eqb c equals then Some ("", rest)
      else match split_equals rest with
           | Some (var, value) => Some (String c var, value)
           | None => None
           end
  end.

(** What the system answers to one attempt to append to log.txt. *)
Inductive open_result : Type :=
| Opened (fd : Z)
| OpenFailed (err : Z).

Record log_io := {
  open_log : open_result;
  write_errno : option Z;    (* the error [write] leaves, if it fails *)
  close_errno : option Z     (* the error [close] leaves, if it fails *)
}.

Section Shell.

(** The file system: [chdir(path)] from a working directory gives the
    new working directory, or fails with an error number. *)
Context (chdir_to : string -> string -> string + Z).

(** The answers to the successive attempts to append to log.txt. *)
Context (log_answers : nat -> log_io).

Definition sys_chdir (path : string) (st : shell_state) : bool * shell_state :=
  let st := emit (Chdir path) st in
  match chdir_to (cwd st) path with
  | inl dir => (true, set_cwd dir st)
  | inr err => (false, set_errno err st)
  end.

(** Lines 336-337 and 358-359. *)
Definition chdir_or_report (path : string) (st : shell_state) : shell_state :=
  let '(ok, st') := sys_chdir path st in
  if ok then st' else perror "cd" st'.

(** Lines 330-361. *)
Definition builtin_cd (args : list string) (st : shell_state) : shell_state :=
  let to_home :=
    chdir_or_report (default "/" (getenv (environment st) "HOME")) st in
  match args with
  | [] => to_home
  | arg :: _ =>
      if String.eqb arg "~" then to_home
      else
        match arg with
        | String c suffix =>
            if Ascii.eqb c tilde then
              match getenv (environment st) "HOME" with
              | Some home =>
                  chdir_or_report
                    (string_take (MAX_LINE - 1) (home +:+ suffix)) st
              | None => perror "HOME not set" st
              end
            else chdir_or_report (string_take (MAX_LINE - 1) arg) st
        | "" => chdir_or_report (string_take (MAX_LINE - 1) arg) st
        end
  end.

(** [strcat(buffer, s)] into [char buffer[MAX_LINE]]. *)
Definition strcat_buffer (buffer s : string) : outcome string :=
  if String.length buffer + String.length s + 1 <=? MAX_LINE
  then Ok (buffer +:+ s) else Undefined "buffer".

(** Lines 367-374. *)
Fixpoint echo_loop (env : gmap string string) (args : list string)
  (buffer : string) : outcome string :=
  match args with
  | [] => Ok buffer
  | arg :: rest =>
      do expanded <- expand_variable env arg;
      do buffer' <- strcat_buffer buffer expanded;
      do buffer'' <- (match rest with
                      | [] => Ok buffer'
                      | _ :: _ => strcat_buffer buffer' " "
                      end);
      echo_loop env rest buffer''
  end.

(** Lines 362-378. *)
Definition builtin_echo (args : list string) (st : shell_state)
  : outcome shell_state :=
  match args with
  | [] => Ok st
  | _ :: _ =>
      do buffer <- echo_loop (environment st) args "";
      Ok (emit (Stdout (buffer +:+ newline)) st)
  end.

(** Lines 379-398. *)
Definition builtin_export (args : list string) (st : shell_state)
  : shell_state :=
  match args with
  | [] => emit (Stderr ("export: missing argument" +:+ newline)) st
  | arg :: _ =>
      match split_equals arg with
      | None => emit (Stderr ("export: invalid argument" +:+ newline)) st
      | Some (var, value) =>
          match setenv (environment st) var value with
          | Some env' => set_environment env' st
          | None => perror "export" (set_errno EINVAL st)
          end
      end
  end.

(** Lines 329-399; [tokens] is never empty when [shell] calls. *)
Definition execute_shell_builtin (tokens : list string) (st : shell_state)
  : outcome shell_state :=
  match tokens with
  | [] => Ok st
  | command :: args =>
      if String.eqb command "cd" then Ok (builtin_cd args st)
      else if String.eqb command "echo" then builtin_echo args st
      else if String.eqb command "export" then Ok (builtin_export args st)
      else Ok st
  end.

(** *** The kernel's side of [waitpid] *)

(** The first terminated child, and the table without it. *)
Fixpoint take_ended (cs : list child) : option (child * list child) :=
  match cs with
  | [] => None
  | c :: rest =>
      if ended c then Some (c, rest)
      else match take_ended rest with
           | Some (z, rest') => Some (z, c :: rest')
           | None => None
           end
  end.

(** The child with the given process id, and the table without it. *)
Fixpoint take_child (p : positive) (cs : list child)
  : option (child * list child) :=
  match cs with
  | [] => None
  | c :: rest =>
      if Pos.eqb (pid c) p then Some (c, rest)
      else match take_child p rest with
           | Some (z, rest') => Some (z, c :: rest')
           | None => None
           end
  end.

(** [waitpid(-1, &status, WNOHANG)]: a terminated child if there is one;
    0 while children are running; -1 with ECHILD without children. *)
Definition waitpid_any_nohang (st : shell_state) : Z * Z * shell_state :=
  let st := emit (Waitpid (-1) WNOHANG) st in
  match take_ended (children st) with
  | Some (c, rest) => (Zpos (pid c), wstatus c, set_children rest st)
  | None =>
      match children st with
      | [] => ((-1)%Z, 0%Z, set_errno ECHILD st)
      | _ :: _ => (0%Z, 0%Z, st)
      end
  end.

(** [waitpid(pid, &status, 0)]: returns once that child has terminated,
    with its status; -1 with ECHILD when the process has no such child. *)
Definition waitpid_child (p : positive) (st : shell_state)
  : Z * Z * shell_state :=
  let st := emit (Waitpid (Zpos p) 0) st in
  match take_child p (children st) with
  | Some (c, rest) => (Zpos p, wstatus c, set_children rest st)
  | None => ((-1)%Z, 0%Z, set_errno ECHILD st)
  end.

Lemma take_ended_shorter cs : forall c rest,
  take_ended cs = Some (c, rest) -> length rest < length cs.
Proof.
  induction cs as [|d cs IH]; intros c rest H; simpl in H; [discriminate|].
  destruct (ended d).
  - injection H as _ <-. simpl. lia.
  - destruct (take_ended cs) as [[z rest']|]; [|discriminate].
    injection H as _ <-. specialize (IH _ _ eq_refl). simpl. lia.
Qed.

(** *** [on_child_exit] (lines 41-57) *)

Definition log_message : string := "Child process was terminated" +:+ newline.

(** Lines 48-54: one attempt to append the message to log.txt. *)
Definition log_termination (st : shell_state) : shell_state :=
  let io := log_answers (log_opens st) in
  let st := set_log (S (log_opens st)) (log st) st in
  match open_log io with
  | OpenFailed err => set_errno err st
  | Opened fd =>
      let st := match write_errno io with
                | None => set_log (log_opens st) (log st ++ [log_message]) st
                | Some err => set_errno err st
                end in
      match close_errno io with
      | None => st
      | Some err => set_errno err st
      end
  end.

Lemma waitpid_any_reaps st r status st' :
  waitpid_any_nohang st = (r, status, st') -> (0 <? r)%Z = true ->
  length (children st') < length (children st).
Proof.
  unfold waitpid_any_nohang. cbn [children emit].
  destruct (take_ended (children st)) as [[c rest]|] eqn:Hz.
  - intros [= <- <- <-] _. cbn [children set_children].
    eapply take_ended_shorter, Hz.
  - destruct (children st); intros [= <- <- <-]; discriminate.
Qed.

Lemma log_termination_children st :
  children (log_termination st) = children st.
Proof.
  unfold log_termination.
  destruct (open_log _); [|reflexivity].
  destruct (write_errno _), (close_errno _); reflexivity.
Qed.

(** The loop of lines 46-55. *)
Equations? reap_loop (st : shell_state) : shell_state
  by wf (length (children st)) lt :=
reap_loop st with inspect (waitpid_any_nohang st) := {
  | exist _ (r, status, st') Hwait with inspect (0 <? r)%Z := {
      | exist _ true Hpos => reap_loop (log_termination st')
      | exist _ false _ => st' } }.
Proof.
  rewrite log_termination_children. eapply waitpid_any_reaps; eassumption.
Qed.

Definition on_child_exit (st : shell_state) : shell_state :=
  let saved_errno := errno st in
  let st' := reap_loop st in
  set_errno saved_errno st'.

(** *** [execute_command] (lines 404-428) *)

(** WTERMSIG and WIFSIGNALED of <sys/wait.h>, as glibc defines them on
    the [int] status. *)
Definition WTERMSIG (status : Z) : Z := Z.land status 127.

Definition signed_char (v : Z) : Z :=
  let b := Z.land v 255 in if (128 <=? b)%Z then (b - 256)%Z else b.

Definition WIFSIGNALED (status : Z) : bool :=
  (0 <? Z.shiftr (signed_char (Z.land status 127 + 1)) 1)%Z.

(** What [fork] answers in the calling process: failure, or the new
    child, the status it will end with, and whether it ends, with its
    SIGCHLD handled, before the caller goes on. *)
Inductive fork_result : Type :=
| ForkFailed (err : Z)
| Forked (p : positive) (status : Z) (early : bool).

(** A child terminates and its SIGCHLD is handled. *)
Definition mark_ended (p : positive) (c : child) : child :=
  if Pos.eqb (pid c) p
  then {| pid := pid c; wstatus := wstatus c; ended := true |} else c.

Definition sigchld (p : positive) (st : shell_state) : shell_state :=
  on_child_exit (set_children (map (mark_ended p) (children st)) st).

Definition signal_message (status : Z) : string :=
  "Child terminated abnormally by signal " +:+ pretty (WTERMSIG status)
  +:+ newline.

(** The calling process after [fork]; the child's side (lines 411-416)
    is [child_branch] below. *)
Definition execute_command (tokens : list string) (background : bool)
  (fk : fork_result) (st : shell_state) : shell_state :=
  match fk with
  | ForkFailed err => perror "fork" (set_errno err st)
  | Forked p status early =>
      let st := set_children
                  (children st
                   ++ [{| pid := p; wstatus := status; ended := false |}]) st in
      let st := if early then sigchld p st else st in
      if background then st
      else
        let '(r, wst, st') := waitpid_child p st in
        (* the child ended during the wait: its SIGCHLD is handled as
           the wait returns *)
        let st' := if early then st' else on_child_exit st' in
        if (r =? -1)%Z then perror "waitpid" st'
        else if WIFSIGNALED wst then emit (Stderr (signal_message wst)) st'
        else st'
  end.

(** How the child of [execute_command] ends its part of the program:
    [execvp] has replaced it by the program of that file name, run with
    that argument list, or the child has left with an exit status. *)
Inductive child_end : Type :=
| Replaced (file : string) (argv : list string)
| ChildExit (status : Z) (st : shell_state).

Definition EXIT_FAILURE : Z := 1.

(** The child's side of [execute_command] (lines 411-416), where [fork]
    returned 0: [execvp(tokens[0], tokens)].  [execvp file argv] is the
    answer of the system: [None] when the program is replaced, and the
    error number when the call fails; the child then reports it, on the
    standard error it shares with the shell, and exits with
    EXIT_FAILURE.  With no token at all [tokens[0]] is NULL, a file
    name [execvp] is not defined for: [Undefined], naming the call. *)
Definition child_branch (execvp : string -> list string -> option Z)
  (tokens : list string) (st : shell_state) : outcome child_end :=
  match tokens with
  | [] => Undefined "execvp"
  | file :: _ =>
      match execvp file tokens with
      | None => Ok (Replaced file tokens)
      | Some err =>
          Ok (ChildExit EXIT_FAILURE (perror "execvp" (set_errno err st)))
      end
  end.

(** *** One turn of the loop of [shell] (lines 79-157) *)

Definition ERANGE : Z := 34.

(** Lines 81-89; [getcwd] fails when the directory does not fit [cwd]. *)
Definition prompt (st : shell_state) : shell_state :=
  if String.length (cwd st) <? MAX_LINE
  then emit (Stdout ("myshell:" +:+ cwd st +:+ "> ")) st
  else emit (Stdout "myshell> ") (set_errno ERANGE st).

Definition is_builtin (command : string) : bool :=
  String.eqb command "cd" || String.eqb command "echo"
  || String.eqb command "export".

(** Lines 140-148: a last token [&] asks for the background and is
    removed. *)
Definition split_background (processed : list string) : bool * list string :=
  match last processed with
  | Some t => if String.eqb t "&" then (true, removelast processed)
              else (false, processed)
  | None => (false, processed)
  end.

(** How a turn ends: [exit] was read, or the loop goes on. *)
Inductive cycle_end : Type :=
| Exited (st : shell_state)
| Prompt (st : shell_state).

Definition state_of (e : cycle_end) : shell_state :=
  match e with Exited st => st | Prompt st => st end.

(** [input] is what [scanf] left in the buffer: at most [MAX_LINE - 1]
    characters of the line. *)
Definition shell_cycle (input : string) (fk : fork_result) (st : shell_state)
  : outcome cycle_end :=
  let st := prompt st in
  if String.length input =? 0 then Ok (Prompt st)
  else
    do tokens <- parse_input input;
    match tokens with
    | [] => Ok (Prompt st)
    | command :: _ =>
        if String.eqb command "exit" then Ok (Exited st)
        else if is_builtin command then
          do st' <- execute_shell_builtin tokens st; Ok (Prompt st')
        else
          do processed <- process_tokens (environment st) tokens;
          let '(background, argv) := split_background processed in
          Ok (Prompt (execute_command argv background fk st))
    end.

(** The same turn in the child that [fork] creates at line 405, if the
    turn gets there: the child has the state of the shell after the
    prompt and no children of its own, and goes on at line 411 with the
    argument list the shell passes to [execute_command].  [None]: the
    turn creates no child. *)
Definition shell_cycle_child (execvp : string -> list string -> option Z)
  (input : string) (st : shell_state) : outcome (option child_end) :=
  let st := prompt st in
  if String.length input =? 0 then Ok None
  else
    do tokens <- parse_input input;
    match tokens with
    | [] => Ok None
    | command :: _ =>
        if String.eqb command "exit" then Ok None
        else if is_builtin command then Ok None
        else
          do processed <- process_tokens (environment st) tokens;
          let '(background, argv) := split_background processed in
          do e <- child_branch execvp argv (set_children [] st);
          Ok (Some e)
    end.

(** What happens to the process, one after the other: a line is read
    (with the answer [fork] gives if the line launches a command), or a
    child ends and its SIGCHLD is handled. *)
Inductive step : Type :=
| Line (input : string) (fk : fork_result)
| ChildEnds (p : positive).

Fixpoint shell (steps : list step) (st : shell_state) : outcome cycle_end :=
  match steps with
  | [] => Ok (Prompt st)
  | Line input fk :: rest =>
      do e <- shell_cycle input fk st;
      match e with
      | Exited st' => Ok (Exited st')
      | Prompt st' => shell rest st'
      end
  | ChildEnds p :: rest => shell rest (sigchld p st)
  end.

(** *** Reading the line (lines 92-101)

    Standard input is the text still to be read; the end of the file
    comes after it. *)

Definition NUL : ascii := ascii_of_nat 0.
Definition LF : ascii := ascii_of_nat 10.

(** [scanf("%[^\n]", input)] with a field width of [width]: the longest
    run of at most [width] characters other than the newline, and the
    input after that run. *)
Fixpoint scan_line (width : nat) (stdin : string) : string * string :=
  match width, stdin with
  | S w, String c rest =>
      if Ascii.eqb c LF then ("", stdin)
      else let '(line, after) := scan_line w rest in (String c line, after)
  | _, _ => ("", stdin)
  end.

(** What [strlen] and the loop of [parse_input] see of a buffer: the
    characters before the first NUL. *)
Fixpoint c_string (buffer : string) : string :=
  match buffer with
  | "" => ""
  | String c rest => if Ascii.eqb c NUL then "" else String c (c_string rest)
  end.

(** [getchar()]: one character is consumed, if there is one. *)
Definition getchar (stdin : string) : string := string_drop 1 stdin.

(** Lines 92-98: [None] when [scanf] stored nothing ([ret != 1]: the
    line is empty, or the input is at its end), otherwise the content
    of [input]; and standard input after the [getchar] that follows in
    both cases. *)
Definition read_input (stdin : string) : option string * string :=
  let '(line, after) := scan_line (MAX_LINE - 1) stdin in
  (if String.length line =? 0 then None else Some (c_string line),
   getchar after).

(** What happens to the process that reads standard input: a turn of
    the loop (with the answer [fork] gives if a command is launched),
    or a child ends and its SIGCHLD is handled. *)
Inductive turn : Type :=
| Read (fk : fork_result)
| Signal (p : positive).

(** The loop of lines 79-157 on standard input, as far as the shell
    alone reads it.  A child shares the descriptor: it may read from
    it, and when it leaves through [exit] it may move the shared offset
    back, so after the first command is launched the text still to be
    read is no longer for the shell to say.  The statements on this
    loop are about turns that launch no command. *)
Fixpoint shell_stdin (turns : list turn) (stdin : string) (st : shell_state)
  : outcome cycle_end :=
  match turns with
  | [] => Ok (Prompt st)
  | Read fk :: later =>
      let '(line, rest) := read_input stdin in
      match line with
      | None => shell_stdin later rest (prompt st)
      | Some input =>
          do e <- shell_cycle input fk st;
          match e with
          | Exited st' => Ok (Exited st')
          | Prompt st' => shell_stdin later rest st'
          end
      end
  | Signal p :: later => shell_stdin later stdin (sigchld p st)
  end.

(** *** [setup_environment] (lines 63-68) and [main] (lines 28-36) *)

Definition setup_environment (st : shell_state) : shell_state :=
  let '(ok, st') := sys_chdir "/" st in
  if ok then st' else perror "chdir" st'.

(** [on_child_exit] is installed for SIGCHLD first (line 30): it is what
    a [Signal] turn runs.  The result is the exit status once [shell]
    has returned, and [None] while the loop is still running. *)
Definition main (turns : list turn) (stdin : string) (st : shell_state)
  : outcome (option Z * shell_state) :=
  do e <- shell_stdin turns stdin (setup_environment st);
  Ok (match e with
      | Exited st' => (Some 0%Z, st')
      | Prompt st' => (None, st')
      end).

End Shell.

(** *** A small system to run examples on *)

Definition ENOENT : Z := 2.
Definition EACCES : Z := 13.

(** A file system with the directories [/], [/tmp] and [/home/u]. *)
Definition small_fs (from path : string) : string + Z :=
  if String.eqb path "/" || String.eqb path "/tmp" || String.eqb path "/home/u"
  then inl path else inr ENOENT.

(** log.txt can always be opened and written. *)
Definition log_works (n : nat) : log_io :=
  {| open_log := Opened 3; write_errno := None; close_errno := None |}.

Definition initial_state : shell_state :=
  {| environment := ∅; cwd := "/tmp"; errno := 0; children := [];
     log_opens := 0; log := []; trace := [] |}.

(** * Specifications and inputs of the examples

    Definitions the statements below are written with: predicates on
    names and arguments, the directory [cd] asks for, what counts as a
    diagnostic, and the concrete lines and states of the examples. *)

Definition all_ident (s : string) : bool := String.eqb (name_of s) s.

Definition starts_ident (s : string) : bool :=
  match s with String c _ => is_ident c | "" => false end.

(** [n] letters [a], and the reference [$aaa...a] to that name. *)
Fixpoint letters (n : nat) : string :=
  match n with
  | 0 => ""
  | S m => String "a"%char (letters m)
  end.

Definition long_reference (n : nat) : string := String dollar (letters n).

(** [n] times the word [a] followed by a blank. *)
Fixpoint words_a_blank (n : nat) : string :=
  match n with
  | 0 => ""
  | S m => "a " +:+ words_a_blank m
  end.

(** The strings of a list, one blank between neighbours. *)
Fixpoint join_blank (l : list string) : string :=
  match l with
  | [] => ""
  | [s] => s
  | s :: rest => s +:+ " " +:+ join_blank rest
  end.

(** The line [export X=aaa...a] with 600 letters. *)
Definition export_long : string := "export X=" +:+ letters 600.

(** What the process writes to standard error. *)
Definition is_diagnostic (ev : event) : bool :=
  match ev with
  | Stderr _ | Perror _ _ => true
  | _ => false
  end.

Definition diagnostics (t : list event) : list event :=
  List.filter is_diagnostic t.

(** The part of the state a SIGCHLD never touches: the bindings, the
    working directory and the terminal. *)
Definition untouched (st st' : shell_state) : Prop :=
  environment st' = environment st /\ cwd st' = cwd st
  /\ diagnostics (trace st') = diagnostics (trace st)
  /\ List.filter (fun ev => match ev with Stdout _ => true | _ => false end)
       (trace st')
     = List.filter (fun ev => match ev with Stdout _ => true | _ => false end)
         (trace st).

(** A log.txt that cannot be opened, and a process with one terminated
    child to collect. *)
Definition log_denied (n : nat) : log_io :=
  {| open_log := OpenFailed EACCES; write_errno := None; close_errno := None |}.

Definition one_ended_child : shell_state :=
  set_children [{| pid := 7; wstatus := 0; ended := true |}] initial_state.

(** Every child with process id [p] in the table has terminated. *)
Definition all_ended (p : positive) (cs : list child) : Prop :=
  Forall (fun c => pid c = p -> ended c = true) cs.

Definition starts_tilde (s : string) : bool :=
  match s with String c _ => Ascii.eqb c tilde | "" => false end.

(** The directory [cd] asks for, as the description of the command has
    it: the value of HOME, or [/] without it, for no argument and for
    [~]; the value of HOME and the rest of the argument for [~rest],
    and nothing when HOME is unset; otherwise the argument as it is.
    What does not fit the path buffer is cut off. *)
Definition cd_path (env : gmap string string) (args : list string)
  : option string :=
  match args with
  | [] => Some (default "/" (getenv env "HOME"))
  | arg :: _ =>
      if String.eqb arg "~" then Some (default "/" (getenv env "HOME"))
      else if starts_tilde arg then
        match getenv env "HOME" with
        | Some home =>
            Some (string_take (MAX_LINE - 1) (home +:+ string_drop 1 arg))
        | None => None
        end
      else Some (string_take (MAX_LINE - 1) arg)
  end.

(** A step that is not a line whose first token is [export]. *)
Definition no_export_line (s : step) : bool :=
  match s with
  | Line input _ =>
      match parse_input input with
      | Ok (command :: _) => negb (String.eqb command "export")
      | _ => true
      end
  | ChildEnds _ => true
  end.

(** A step that is not a line [export NAME=...] for the given name. *)
Definition keeps_name (name : string) (s : step) : bool :=
  match s with
  | Line input _ =>
      match parse_input input with
      | Ok (command :: arg :: _) =>
          if String.eqb command "export" then
            match split_equals arg with
            | Some (var, _) => negb (String.eqb var name)
            | None => true
            end
          else true
      | _ => true
      end
  | ChildEnds _ => true
  end.

(** The change of directory fails: the system refuses the directory
    [cd] asks for, or the argument is [~] followed by more and HOME is
    not set. *)
Definition cd_change_fails (chdir_to : string -> string -> string + Z)
  (st : shell_state) (args : list string) : Prop :=
  (exists path err,
      cd_path (environment st) args = Some path
      /\ chdir_to (cwd st) path = inr err)
  \/ (exists c suffix rest,
        args = String tilde (String c suffix) :: rest
        /\ getenv (environment st) "HOME" = None).

(** Steps after [export FOO=bar] that do not export FOO again. *)
Definition later_steps : list step :=
  [Line "cd /" (ForkFailed 0); Line "export BAR=x" (ForkFailed 0); ChildEnds 3].

(** A process with HOME and B bound. *)
Definition state_home : shell_state :=
  set_environment {[ "HOME" := "/home/u"; "B" := "x" ]} initial_state.

(** Every character of a string satisfies [p]. *)
Fixpoint all_chars (p : ascii -> bool) (s : string) : bool :=
  match s with
  | "" => true
  | String c rest => p c && all_chars p rest
  end.

(** A word as it is typed without quotes: not empty, no blank, no
    double quote. *)
Definition plain_word (t : string) : bool :=
  negb (String.eqb t "") && negb (has_blank t) && negb (occurs dquote t).

(** A token the post-processor hands on as it is: no reference, no
    blank. *)
Definition plain_token (t : string) : bool :=
  negb (occurs dollar t) && negb (has_blank t).

(** The children still running. *)
Definition running (cs : list child) : list child :=
  List.filter (fun c => negb (ended c)) cs.

(** How many of the [n] attempts to append to log.txt, from the
    attempt number [from] on, open the file and write the line. *)
Fixpoint logged (log_answers : nat -> log_io) (from n : nat) : nat :=
  match n with
  | 0 => 0
  | S m =>
      match open_log (log_answers from), write_errno (log_answers from) with
      | Opened _, None => S (logged log_answers (S from) m)
      | _, _ => logged log_answers (S from) m
      end
  end.

(** A line as it is typed: not empty, shorter than the input buffer,
    without a newline or a NUL inside. *)
Definition typed_line (input : string) : bool :=
  (0 <? String.length input) && (String.length input <? MAX_LINE)
  && negb (occurs LF input) && negb (occurs NUL input).

(** The steps of a session as turns of the loop, and what is typed for
    them: each line followed by a newline. *)
Definition turn_of (s : step) : turn :=
  match s with
  | Line _ fk => Read fk
  | ChildEnds p => Signal p
  end.

Fixpoint typed (steps : list step) : string :=
  match steps with
  | [] => ""
  | Line input _ :: rest => input +:+ String LF (typed rest)
  | ChildEnds _ :: rest => typed rest
  end.

Definition typed_step (s : step) : bool :=
  match s with
  | Line input _ => typed_line input
  | ChildEnds _ => true
  end.

(** No value of the environment holds a ['$']. *)
Definition dollar_free (env : gmap string string) : Prop :=
  map_Forall (fun _ value => occurs dollar value = false) env.

(** What the process writes to standard output. *)
Definition printed (t : list event) : list event :=
  List.filter (fun ev => match ev with Stdout _ => true | _ => false end) t.

(** How many of the turns read standard input. *)
Definition reads (turns : list turn) : nat :=
  length (List.filter (fun t => match t with Read _ => true | Signal _ => false end)
            turns).

(** The characters of the strings of a list, and one separator after
    each. *)
Fixpoint total (l : list string) : nat :=
  match l with
  | [] => 0
  | t :: rest => S (String.length t) + total rest
  end.

(** A step that is not a line whose first token is [cd]. *)
Definition no_cd_line (s : step) : bool :=
  match s with
  | Line input _ =>
      match parse_input input with
      | Ok (command :: _) => negb (String.eqb command "cd")
      | _ => true
      end
  | ChildEnds _ => true
  end.

(** A step that creates no child: a child's end, or a line without a
    token, or with [exit] or a built-in as its first token, or one the
    tokenizer does not return from. *)
Definition forks_nothing (s : step) : bool :=
  match s with
  | Line input _ =>
      match parse_input input with
      | Ok (command :: _) => String.eqb command "exit" || is_builtin command
      | _ => true
      end
  | ChildEnds _ => true
  end.


(** The two lines [exit 3] and [ls] on standard input. *)
Definition stdin_exit : string := "exit 3" +:+ String LF ("ls" +:+ String LF "").

(** An environment whose only value is two blanks. *)
Definition env_blank : gmap string string := {[ "B" := "  " ]}.

(** * Properties *)

(** ** The examples of the description *)

Example parse_abcd : parse_input line_abcd = Ok ["a"; "b c"; "d"].
Proof. reflexivity. Qed.

Example expand_home : expand_variable env_home "$HOME/x" = Ok "/root/x".
Proof. reflexivity. Qed.

Example expand_unset : expand_variable env_home "$UNSET" = Ok "".
Proof. reflexivity. Qed.

Example process_list :
  process_tokens env_list ["ls"; "$LIST"; "x"] = Ok ["ls"; "one"; "two"; "x"].
Proof. reflexivity. Qed.

Example cd_home_example :
  cwd (builtin_cd small_fs []
         (set_environment {[ "HOME" := "/home/u" ]} initial_state)) = "/home/u".
Proof. reflexivity. Qed.

Example export_then_echo :
  (do e <- shell small_fs log_works
             [Line "export FOO=bar" (ForkFailed 0); Line "echo $FOO" (ForkFailed 0)]
             initial_state;
   Ok (trace (state_of e)))
  = Ok [Stdout "myshell:/tmp> "; Stdout "myshell:/tmp> ";
        Stdout ("bar" +:+ newline)].
Proof. reflexivity. Qed.

(** ** The tokenizer and its arrays *)

Section Tokenizer.

Lemma length_snoc s c : String.length (snoc s c) = S (String.length s).
Proof. unfold snoc. induction s as [|a s IH]; simpl; [reflexivity | now rewrite IH]. Qed.

Lemma length_app_string s t :
  String.length (s +:+ t) = String.length s + String.length t.
Proof. induction s as [|a s IH]; simpl; [reflexivity | now rewrite IH]. Qed.

Lemma cap_ok_init : cap_ok tokenizer_init.
Proof. exists 0. cbv. lia. Qed.

Lemma finish_grow_ok st :
  cap_ok st -> String.length (current_token st) < MAX_LINE ->
  exists st', finish_token st = Ok st'
    /\ tokens (grow_tokens st') = tokens st ++ [current_token st]
    /\ current_token (grow_tokens st') = ""
    /\ in_quotes (grow_tokens st') = in_quotes st
    /\ cap_ok (grow_tokens st').
Proof.
  intros (k & Hc & Hk) Hlen. unfold finish_token, store_token.
  apply Nat.ltb_lt in Hlen; rewrite Hlen.
  assert (Hroom : (length (tokens st) <? tokens_cap st) = true)
    by (apply Nat.ltb_lt; lia).
  rewrite Hroom.
  simpl. eexists; split; [reflexivity|].
  unfold grow_tokens; simpl. rewrite length_app; simpl.
  destruct (Nat.leb_spec (tokens_cap st) (length (tokens st) + 1)); simpl.
  - repeat split; try reflexivity. exists (S k); simpl.
    rewrite length_app; simpl. unfold INIT_TOKENS in *. lia.
  - repeat split; try reflexivity. exists k; simpl.
    rewrite length_app; simpl. unfold INIT_TOKENS in *. lia.
Qed.

(** The loop of [parse_input] never leaves its arrays on a line that fits
    the input buffer of [shell], and computes [lex]. *)
Lemma parse_loop_lex input : forall st,
  cap_ok st ->
  String.length (current_token st) + String.length input < MAX_LINE ->
  exists st', parse_loop st input = Ok st'
    /\ cap_ok st'
    /\ tokens st' = tokens st ++ (lex (in_quotes st) (current_token st) input).1
    /\ current_token st' = (lex (in_quotes st) (current_token st) input).2
    /\ String.length (current_token st') < MAX_LINE.
Proof.
  induction input as [|c rest IH]; intros st Hcap Hlen; simpl in *.
  - exists st. rewrite app_nil_r. repeat split; auto. lia.
  - unfold parse_step.
    destruct (Ascii.eqb c dquote).
    { simpl. apply (IH (Build_tokenizer _ _ _ _)); simpl; [exact Hcap | lia]. }
    destruct (is_blank c && negb (in_quotes st)) eqn:Hb.
    + destruct (0 <? String.length (current_token st)) eqn:Hne.
      * destruct (finish_grow_ok st Hcap) as (st1 & -> & Ht & Hcur & Hq & Hcap1);
          [lia|]. simpl.
        destruct (IH (grow_tokens st1) Hcap1) as (st2 & Hrun & ? & Ht2 & Hc2 & ?).
        { rewrite Hcur. simpl. lia. }
        exists st2. rewrite Hq, Hcur in *.
        destruct (lex (in_quotes st) "" rest) as [done open] eqn:Hlex.
        simpl in *. rewrite Ht2, Ht, <- app_assoc. auto.
      * apply IH; [exact Hcap | lia].
    + assert (Hroom : (String.length (current_token st) <? MAX_LINE) = true)
        by (apply Nat.ltb_lt; lia).
      rewrite Hroom. simpl. apply (IH (Build_tokenizer _ _ _ _)); simpl; [exact Hcap|].
      rewrite length_snoc. lia.
Qed.

(** What [parse_input] returns on every line that fits the input buffer:
    the tokens of [tokenize], unless the token closed after the loop is
    the last slot of the array, where the end marker is stored one slot
    past the array. *)
Lemma parse_input_spec input :
  String.length input < MAX_LINE ->
  parse_input input =
    let '(done, open) := lex false "" input in
    if (0 <? String.length open) && (S (length done) mod INIT_TOKENS =? 0)
    then Undefined "tokens" else Ok (tokenize input).
Proof.
  intros Hlen. unfold parse_input, tokenize.
  destruct (parse_loop_lex input tokenizer_init cap_ok_init)
    as (st & -> & (k & Hc & Hk) & Ht & Hcur & Hopen); [simpl; lia|].
  cbn [tokens current_token in_quotes tokenizer_init app] in Ht, Hcur.
  destruct (lex false "" input) as [done open].
  cbn [fst snd] in Ht, Hcur. subst open. rewrite Ht in Hk.
  unfold close_token. cbn [obind].
  pose proof (Nat.div_mod_eq (S (length done)) INIT_TOKENS) as Hdm.
  assert (Hub : S (length done) mod INIT_TOKENS < INIT_TOKENS)
    by (apply Nat.mod_upper_bound; discriminate).
  destruct (0 <? String.length (current_token st)) eqn:Hne; cbn [andb].
  - unfold finish_token, store_token.
    apply Nat.ltb_lt in Hopen; rewrite Hopen.
    assert (Hroom : (length (tokens st) <? tokens_cap st) = true)
      by (apply Nat.ltb_lt; rewrite Ht; lia).
    rewrite Hroom. cbn [obind tokens tokens_cap]. unfold store_sentinel.
    rewrite Ht, length_app. cbn [length].
    destruct (Nat.eqb_spec (S (length done) mod INIT_TOKENS) 0) as [E|E].
    + assert (Hfull : (length done + 1 <? tokens_cap st) = false)
        by (apply Nat.ltb_ge; unfold INIT_TOKENS in *; lia).
      now rewrite Hfull.
    + assert (Hfree : (length done + 1 <? tokens_cap st) = true)
        by (apply Nat.ltb_lt; unfold INIT_TOKENS in *; lia).
      now rewrite Hfree.
  - cbn [obind]. unfold store_sentinel.
    assert (Hroom : (length (tokens st) <? tokens_cap st) = true)
      by (apply Nat.ltb_lt; rewrite Ht; lia).
    now rewrite Hroom, Ht, app_nil_r.
Qed.

Lemma occurs_snoc c s d : occurs c (snoc s d) = occurs c s || Ascii.eqb d c.
Proof.
  unfold snoc. induction s as [|a s IH]; simpl.
  - now rewrite orb_false_r.
  - now rewrite IH, orb_assoc.
Qed.

Lemma lex_nonempty input : forall q cur,
  Forall (fun t => t <> "") (lex q cur input).1.
Proof.
  induction input as [|c rest IH]; intros q cur; simpl; [constructor|].
  destruct (Ascii.eqb c dquote); [apply IH|].
  destruct (is_blank c && negb q); [|apply IH].
  destruct (0 <? String.length cur) eqn:Hne; [|apply IH].
  specialize (IH q ""). destruct (lex q "" rest) as [done open]; simpl in *.
  constructor; [|exact IH].
  intros ->. simpl in Hne. discriminate.
Qed.

Lemma lex_no_dquote input : forall q cur,
  occurs dquote cur = false ->
  Forall (fun t => occurs dquote t = false) (lex q cur input).1
  /\ occurs dquote (lex q cur input).2 = false.
Proof.
  induction input as [|c rest IH]; intros q cur Hcur; simpl; [auto|].
  destruct (Ascii.eqb c dquote) eqn:Hc; [apply IH, Hcur|].
  destruct (is_blank c && negb q).
  - destruct (0 <? String.length cur); [|apply IH, Hcur].
    destruct (IH q "" eq_refl) as [Hd Ho].
    destruct (lex q "" rest) as [done open]; simpl in *. auto.
  - apply IH. now rewrite occurs_snoc, Hcur, Hc.
Qed.

Lemma tokenize_nonempty input : Forall (fun t => t <> "") (tokenize input).
Proof.
  unfold tokenize. pose proof (lex_nonempty input false "") as H.
  destruct (lex false "" input) as [done open]; simpl in *.
  apply Forall_app; split; [exact H|]. unfold close_token.
  destruct (0 <? String.length open) eqn:Hne; constructor; [|constructor].
  intros ->. discriminate.
Qed.

Lemma tokenize_no_dquote input :
  Forall (fun t => occurs dquote t = false) (tokenize input).
Proof.
  unfold tokenize. destruct (lex_no_dquote input false "" eq_refl) as [Hd Ho].
  destruct (lex false "" input) as [done open]; simpl in *.
  apply Forall_app; split; [exact Hd|]. unfold close_token.
  destruct (0 <? String.length open); repeat constructor. exact Ho.
Qed.

End Tokenizer.

(** ** The expander and its buffers *)

Section Expander.

Context (env : gmap string string).

Lemma app_string_cons (a : ascii) (s t : string) :
  String a s +:+ t = String a (s +:+ t).
Proof. reflexivity. Qed.

Lemma app_string_assoc (s t u : string) : (s +:+ t) +:+ u = s +:+ (t +:+ u).
Proof.
  induction s as [|a s IH]; [reflexivity|].
  now rewrite !app_string_cons, IH.
Qed.

Lemma app_string_empty (s : string) : s +:+ "" = s.
Proof.
  induction s as [|a s IH]; [reflexivity|].
  now rewrite app_string_cons, IH.
Qed.

Lemma snoc_app (s : string) (c : ascii) (t : string) :
  snoc s c +:+ t = s +:+ String c t.
Proof. unfold snoc. now rewrite app_string_assoc. Qed.

Lemma double_until_enough fuel : forall cap need,
  0 < cap -> need <= cap + fuel -> need <= double_until fuel cap need.
Proof.
  induction fuel as [|fuel IH]; intros cap need Hpos Hfuel; simpl; [lia|].
  destruct (Nat.ltb_spec cap need); [|lia].
  apply IH; lia.
Qed.

Lemma append_value_ok b value :
  buf_ok b ->
  exists b', append_value b value = Ok b'
    /\ data b' = data b +:+ value /\ buf_ok b'.
Proof.
  unfold buf_ok, append_value. intros Hb.
  set (need := String.length (data b) + String.length value + 1).
  assert (Hneed : need <= double_until need (capacity b) need)
    by (apply double_until_enough; lia).
  apply Nat.leb_le in Hneed as Hneed'. rewrite Hneed'.
  eexists; split; [reflexivity|]. simpl. split; [reflexivity|].
  rewrite length_app_string. exact Hneed.
Qed.

Lemma append_char_ok b c :
  buf_ok b ->
  exists b', append_char b c = Ok b'
    /\ data b' = snoc (data b) c /\ buf_ok b'.
Proof.
  unfold buf_ok, append_char. intros Hb.
  set (cap := if capacity b <? String.length (data b) + 2
              then 2 * capacity b else capacity b).
  assert (Hcap : String.length (data b) + 2 <= cap).
  { unfold cap. destruct (Nat.ltb_spec (capacity b) (String.length (data b) + 2)); lia. }
  apply Nat.leb_le in Hcap as Hcap'. rewrite Hcap'.
  eexists; split; [reflexivity|]. simpl. split; [reflexivity|].
  rewrite length_snoc. lia.
Qed.

Lemma scan_name_spec s : forall varname,
  scan_name s varname =
    if String.length (varname +:+ name_of s) <? VARNAME_SIZE
    then Ok (varname +:+ name_of s) else Undefined "varname".
Proof.
  induction s as [|c rest IH]; intros varname; simpl.
  - now rewrite app_string_empty.
  - destruct (is_ident c).
    + rewrite IH, snoc_app.
      destruct (Nat.ltb_spec (String.length varname) VARNAME_SIZE) as [Hv|Hv];
        [reflexivity|].
      assert (Hlong : (String.length (varname +:+ String c (name_of rest))
                       <? VARNAME_SIZE) = false)
        by (apply Nat.ltb_ge; rewrite length_app_string; lia).
      now rewrite Hlong.
    + now rewrite app_string_empty.
Qed.

(** [expand_variable] stays inside [result] on every token; it leaves
    [varname] exactly when a name does not fit, and otherwise computes
    [expand]. *)
Lemma expand_loop_spec n : forall token b,
  String.length token < n -> buf_ok b ->
  if names_fit token
  then exists b', expand_loop env token b = Ok b'
         /\ data b' = data b +:+ expand env token /\ buf_ok b'
  else expand_loop env token b = Undefined "varname".
Proof.
  induction n as [|n IH]; intros token b Hlen Hb; [lia|].
  destruct token as [|c rest].
  - simp names_fit expand_loop expand. exists b.
    now rewrite app_string_empty.
  - simp names_fit expand_loop expand.
    destruct (Ascii.eqb c dollar) eqn:Hc; simpl.
    + rewrite scan_name_spec. change ("" +:+ name_of rest) with (name_of rest).
      destruct (String.length (name_of rest) <? VARNAME_SIZE); simpl;
        [|reflexivity].
      destruct (append_value_ok b (default "" (getenv env (name_of rest))) Hb)
        as (b1 & -> & Hd1 & Hb1). simpl.
      pose proof (string_drop_length (String.length (name_of rest)) rest) as Hd.
      simpl in Hlen.
      specialize (IH (string_drop (String.length (name_of rest)) rest) b1
                     ltac:(lia) Hb1).
      destruct (names_fit (string_drop (String.length (name_of rest)) rest));
        [|exact IH].
      destruct IH as (b2 & -> & Hd2 & Hb2). exists b2.
      repeat split; [|exact Hb2].
      now rewrite Hd2, Hd1, app_string_assoc.
    + destruct (append_char_ok b c Hb) as (b1 & -> & Hd1 & Hb1). simpl.
      simpl in Hlen. specialize (IH rest b1 ltac:(lia) Hb1).
      destruct (names_fit rest); [|exact IH].
      destruct IH as (b2 & -> & Hd2 & Hb2). exists b2.
      repeat split; [|exact Hb2].
      now rewrite Hd2, Hd1, snoc_app.
Qed.

Lemma expand_variable_spec token :
  expand_variable env token =
    if names_fit token then Ok (expand env token) else Undefined "varname".
Proof.
  unfold expand_variable.
  pose proof (expand_loop_spec (S (String.length token)) token
                {| data := ""; capacity := 1024 |}) as H.
  destruct (names_fit token).
  - destruct H as (b & -> & Hd & _); [lia | unfold buf_ok; simpl; lia|].
    simpl. now rewrite Hd.
  - rewrite H; [reflexivity | lia | unfold buf_ok; simpl; lia].
Qed.

(** A token without ['$'] has no name to copy and is its own expansion. *)
Lemma no_dollar_expand token :
  occurs dollar token = false ->
  names_fit token = true /\ expand env token = token.
Proof.
  induction token as [|c rest IH]; intros Hno.
  - now simp names_fit expand.
  - simpl in Hno. apply orb_false_elim in Hno as [Hc Hrest].
    simp names_fit expand. rewrite Hc. simpl.
    destruct (IH Hrest) as [-> ->]. auto.
Qed.

End Expander.

(** ** The post-processor and its array *)

Section PostProcessor.

Context (env : gmap string string).

Lemma arr_ok_init : arr_ok {| new_tokens := []; newSize := INIT_TOKENS |}.
Proof. exists 0. cbv. lia. Qed.

Lemma push_token_ok arr t :
  arr_ok arr ->
  exists arr', push_token arr t = Ok arr'
    /\ new_tokens arr' = new_tokens arr ++ [t] /\ arr_ok arr'.
Proof.
  intros (k & Hs & Hk). unfold push_token, store_token.
  destruct (Nat.leb_spec (newSize arr) (length (new_tokens arr))) as [Hfull|Hfree].
  - assert (Hroom : (length (new_tokens arr) <? newSize arr + INIT_TOKENS) = true)
      by (apply Nat.ltb_lt; unfold INIT_TOKENS in *; lia).
    rewrite Hroom. cbn [obind]. eexists; split; [reflexivity|].
    cbn [new_tokens newSize]. split; [reflexivity|].
    exists (S k). cbn [new_tokens newSize]. rewrite length_app. cbn [length].
    unfold INIT_TOKENS in *. lia.
  - apply Nat.ltb_lt in Hfree as Hroom. rewrite Hroom. cbn [obind].
    eexists; split; [reflexivity|].
    cbn [new_tokens newSize]. split; [reflexivity|].
    exists k. cbn [new_tokens newSize]. rewrite length_app. cbn [length].
    unfold INIT_TOKENS in *. lia.
Qed.

Lemma split_loop_spec n : forall s arr,
  String.length s < n -> arr_ok arr ->
  exists arr', split_loop s arr = Ok arr'
    /\ new_tokens arr' = new_tokens arr ++ words s /\ arr_ok arr'.
Proof.
  induction n as [|n IH]; intros s arr Hlen Harr; [lia|].
  rewrite split_loop_equation_1, words_equation_1.
  destruct (inspect (strtok s)) as [[[word save']|] Hnext]; simpl.
  - destruct (push_token_ok arr word Harr) as (arr1 & -> & Ht1 & Harr1).
    cbn [obind]. pose proof (strtok_shorter _ _ _ Hnext) as Hshort.
    destruct (IH save' arr1 ltac:(lia) Harr1) as (arr2 & -> & Ht2 & Harr2).
    exists arr2. repeat split; [|exact Harr2].
    now rewrite Ht2, Ht1, <- app_assoc.
  - exists arr. now rewrite app_nil_r.
Qed.

Lemma process_loop_spec tokens : forall arr,
  arr_ok arr ->
  if forallb names_fit tokens
  then exists arr', process_loop env tokens arr = Ok arr'
         /\ new_tokens arr' = new_tokens arr ++ flat_map (post_process env) tokens
         /\ arr_ok arr'
  else process_loop env tokens arr = Undefined "varname".
Proof.
  induction tokens as [|token rest IH]; intros arr Harr; cbn [forallb process_loop flat_map].
  - exists arr. now rewrite app_nil_r.
  - rewrite expand_variable_spec.
    destruct (names_fit token); cbn [andb obind]; [|reflexivity].
    assert (Hstep : exists arr1,
      (if has_blank (expand env token) then split_loop (expand env token) arr
       else push_token arr (expand env token)) = Ok arr1
      /\ new_tokens arr1 = new_tokens arr ++ post_process env token
      /\ arr_ok arr1).
    { unfold post_process. destruct (has_blank (expand env token)).
      - eapply split_loop_spec; [apply Nat.lt_succ_diag_r | exact Harr].
      - apply push_token_ok, Harr. }
    destruct Hstep as (arr1 & -> & Ht1 & Harr1). cbn [obind].
    specialize (IH arr1 Harr1). destruct (forallb names_fit rest); [|exact IH].
    destruct IH as (arr2 & -> & Ht2 & Harr2). exists arr2.
    repeat split; [|exact Harr2].
    now rewrite Ht2, Ht1, <- app_assoc.
Qed.

(** What [process_tokens] returns on every token list: the tokens of
    [post_process] in the order of the input, unless a name does not fit
    [varname], or the list fills [new_tokens] to its last slot, where the
    end marker is stored one slot past the array. *)
Lemma process_tokens_spec tokens :
  process_tokens env tokens =
    if forallb names_fit tokens then
      let out := flat_map (post_process env) tokens in
      if (0 <? length out) && (length out mod INIT_TOKENS =? 0)
      then Undefined "new_tokens" else Ok out
    else Undefined "varname".
Proof.
  unfold process_tokens.
  pose proof (process_loop_spec tokens _ arr_ok_init) as H.
  destruct (forallb names_fit tokens); [|now rewrite H].
  destruct H as (arr & -> & Ht & (k & Hs & Hk)). cbn [obind new_tokens app] in *.
  rewrite Ht in *. set (out := flat_map (post_process env) tokens) in *.
  cbv zeta. unfold store_sentinel.
  pose proof (Nat.div_mod_eq (length out) INIT_TOKENS) as Hdm.
  assert (Hub : length out mod INIT_TOKENS < INIT_TOKENS)
    by (apply Nat.mod_upper_bound; discriminate).
  destruct (Nat.ltb_spec 0 (length out)) as [Hpos|Hzero]; cbn [andb].
  - destruct (Nat.eqb_spec (length out mod INIT_TOKENS) 0) as [E|E].
    + assert (Hfull : (length out <? newSize arr) = false)
        by (apply Nat.ltb_ge; unfold INIT_TOKENS in *; lia).
      now rewrite Hfull.
    + assert (Hfree : (length out <? newSize arr) = true)
        by (apply Nat.ltb_lt; unfold INIT_TOKENS in *; lia).
      now rewrite Hfree.
  - assert (Hfree : (length out <? newSize arr) = true)
      by (apply Nat.ltb_lt; unfold INIT_TOKENS in *; lia).
    now rewrite Hfree.
Qed.

End PostProcessor.

(** ** Tokenizer *)

(** How the tokenizer reads one character: a quote toggles the mode and
    is dropped; a blank inside quotes is copied; a blank outside quotes
    closes the open token if there is one; any other character is
    copied. *)
Lemma lex_character (q : bool) (cur rest : string) (c : ascii) :
  lex q cur (String c rest) =
    if Ascii.eqb c dquote then lex (negb q) cur rest
    else if is_blank c then
      if q then lex true (snoc cur c) rest
      else if String.eqb cur "" then lex false "" rest
      else (cur :: (lex false "" rest).1, (lex false "" rest).2)
    else lex q (snoc cur c) rest.
Proof.
  simpl. destruct (Ascii.eqb c dquote); [reflexivity|].
  destruct (is_blank c), q; simpl; try reflexivity.
  destruct cur as [|a cur]; simpl; [reflexivity|].
  now destruct (lex false "" rest).
Qed.

(** On every line that fits the input buffer and has fewer tokens than
    the array has slots, [parse_input] returns the tokens of [tokenize]:
    none of them is empty and none holds a quote character. *)
Lemma parse_input_tokens input :
  String.length input < MAX_LINE ->
  length (tokenize input) < INIT_TOKENS ->
  parse_input input = Ok (tokenize input)
  /\ Forall (fun t => t <> "" /\ occurs dquote t = false) (tokenize input).
Proof.
  intros Hlen Hfew. split.
  - rewrite parse_input_spec by exact Hlen. unfold tokenize in *.
    destruct (lex false "" input) as [done open]. unfold close_token in *.
    destruct (0 <? String.length open); cbn [andb]; [|reflexivity].
    rewrite length_app in Hfew. cbn [length] in Hfew.
    replace (S (length done)) with (length done + 1) by lia.
    rewrite Nat.mod_small by lia.
    destruct (Nat.eqb_spec (length done + 1) 0); [lia | reflexivity].
  - apply Forall_and; split;
      [apply tokenize_nonempty | apply tokenize_no_dquote].
Qed.

(** C3 (tokenizer), at a line the code does not tokenize: on the line of
    one hundred words [a a ... a] the hundredth token is closed after the
    loop, in the last slot of the array of [INIT_TOKENS] slots, and the
    end marker is stored at [tokens[100]], outside the array. *)
Theorem parse_input_hundred_words :
  String.length (words_a 99) < MAX_LINE
  /\ tokenize (words_a 99) = replicate 100 "a"
  /\ parse_input (words_a 99) = Undefined "tokens"
  /\ forall fk,
       shell_cycle small_fs log_works (words_a 99) fk initial_state
       = Undefined "tokens".
Proof.
  split; [apply Nat.ltb_lt; vm_compute; reflexivity|].
  split; [vm_compute; reflexivity|].
  split; [vm_compute; reflexivity|].
  intros fk. vm_compute. reflexivity.
Qed.

(** ** Variable expander *)

Lemma name_of_app name s :
  all_ident name = true -> starts_ident s = false ->
  name_of (name +:+ s) = name.
Proof.
  unfold all_ident. intros Hname Hs. apply String.eqb_eq in Hname.
  induction name as [|c name IH].
  - destruct s as [|d s]; [reflexivity|]. simpl in *. now rewrite Hs.
  - rewrite app_string_cons. simpl in *.
    destruct (is_ident c); [|discriminate].
    injection Hname as Hname. now rewrite IH.
Qed.

Lemma string_drop_app name s :
  string_drop (String.length name) (name +:+ s) = s.
Proof.
  induction name as [|c name IH]; [now destruct s|].
  rewrite app_string_cons. exact IH.
Qed.

Lemma string_drop_app_cons name c s :
  string_drop (S (String.length name)) (name +:+ String c s) = s.
Proof.
  induction name as [|a name IH]; [reflexivity|].
  rewrite app_string_cons. exact IH.
Qed.

Lemma string_drop_past name :
  string_drop (S (String.length name)) (name +:+ "") = "".
Proof.
  induction name as [|a name IH]; [reflexivity|].
  rewrite app_string_cons. exact IH.
Qed.

(** The equations of the expander: a character other than ['$'] is
    copied; ['$'] and the longest run of identifier characters after it
    become the value of that name, or nothing when it is unset; in
    particular ['$'] before no identifier character disappears. *)
Lemma expand_equations (env : gmap string string) :
  expand env "" = ""
  /\ (forall c s, Ascii.eqb c dollar = false ->
        expand env (String c s) = String c (expand env s))
  /\ (forall name s, all_ident name = true -> starts_ident s = false ->
        expand env (String dollar (name +:+ s))
        = default "" (getenv env name) +:+ expand env s)
  /\ (forall s, starts_ident s = false ->
        expand env (String dollar s) = expand env s).
Proof.
  assert (Href : forall name s,
    all_ident name = true -> starts_ident s = false ->
    expand env (String dollar (name +:+ s))
    = default "" (getenv env name) +:+ expand env s).
  { intros name s Hname Hs. simp expand.
    replace (Ascii.eqb dollar dollar) with true by reflexivity. simpl.
    now rewrite name_of_app, string_drop_app by assumption. }
  split; [|split; [|split]].
  - now simp expand.
  - intros c s Hc. simp expand. now rewrite Hc.
  - exact Href.
  - intros s Hs. exact (Href "" s eq_refl Hs).
Qed.

(** Within [varname], [expand_variable] returns what [expand] says. *)
Lemma expand_variable_fits env token :
  names_fit token = true -> expand_variable env token = Ok (expand env token).
Proof. intros H. now rewrite expand_variable_spec, H. Qed.

(** C2 (variable expander), at a token the code does not expand: after
    ['$'] the 128 letters of the name fill [char varname[128]], and the
    terminator is stored at [varname[128]], outside the array, whatever
    the environment holds. *)
Theorem expand_variable_long_name (env : gmap string string) :
  all_ident (letters 128) = true
  /\ expand_variable env (long_reference 128) = Undefined "varname"
  /\ forall fk,
       shell_cycle small_fs log_works ("echo " +:+ long_reference 128) fk
         initial_state
       = Undefined "varname".
Proof.
  split; [reflexivity|]. split.
  - rewrite expand_variable_spec.
    replace (names_fit (long_reference 128)) with false
      by (vm_compute; reflexivity).
    reflexivity.
  - intros fk. vm_compute. reflexivity.
Qed.

(** C9 (identity without ['$']): a token that holds no ['$'] is returned
    as it is, whatever the environment holds. *)
Theorem expand_variable_no_dollar (env : gmap string string) (token : string) :
  occurs dollar token = false -> expand_variable env token = Ok token.
Proof.
  intros Hno. destruct (no_dollar_expand env token Hno) as [Hfit Hid].
  now rewrite expand_variable_spec, Hfit, Hid.
Qed.

Lemma expand_variable_no_dollar_witness :
  occurs dollar "ls-l_x" = false
  /\ expand_variable env_home "ls-l_x" = Ok "ls-l_x".
Proof.
  split; [reflexivity|].
  apply (expand_variable_no_dollar env_home "ls-l_x"). reflexivity.
Defined.

(** ** Token post-processor *)

Lemma has_blank_cons c s : has_blank (String c s) = is_blank c || has_blank s.
Proof.
  unfold has_blank, is_blank. simpl.
  destruct (Ascii.eqb c space), (Ascii.eqb c tab); simpl; try reflexivity.
  now rewrite orb_true_r.
Qed.

Lemma word_of_app w s :
  has_blank w = false -> (s = "" \/ exists c s', s = String c s' /\ is_blank c = true) ->
  word_of (w +:+ s) = w.
Proof.
  intros Hw Hs. induction w as [|a w IH].
  - destruct Hs as [->|(c & s' & -> & Hc)]; [reflexivity|].
    simpl. now rewrite Hc.
  - rewrite has_blank_cons in Hw. apply orb_false_elim in Hw as [Ha Hw].
    rewrite app_string_cons. simpl. now rewrite Ha, IH.
Qed.

Lemma words_next s :
  words s = match strtok s with
            | None => []
            | Some (word, save') => word :: words save'
            end.
Proof.
  rewrite words_equation_1.
  destruct (inspect (strtok s)) as [[[word save']|] Hnext]; simpl;
    now rewrite Hnext.
Qed.

(** The equations of the word splitter: leading delimiters are skipped,
    a run of other characters up to the next delimiter is one word, and
    the last word ends with the string. *)
Lemma words_equations :
  words "" = []
  /\ (forall c s, is_blank c = true -> words (String c s) = words s)
  /\ (forall a w c s, has_blank (String a w) = false -> is_blank c = true ->
        words (String a w +:+ String c s) = String a w :: words s)
  /\ (forall a w, has_blank (String a w) = false ->
        words (String a w) = [String a w]).
Proof.
  split; [|split; [|split]].
  - now rewrite words_next.
  - intros c s Hc. rewrite (words_next (String c s)), (words_next s).
    simpl. now rewrite Hc.
  - intros a w c s Hw Hc. rewrite words_next.
    pose proof Hw as Hw'. rewrite has_blank_cons in Hw'.
    apply orb_false_elim in Hw' as [Ha _].
    rewrite app_string_cons. cbn [strtok]. rewrite Ha.
    rewrite <- app_string_cons, word_of_app by eauto.
    now rewrite string_drop_app_cons.
  - intros a w Hw. rewrite words_next.
    pose proof Hw as Hw'. rewrite has_blank_cons in Hw'.
    apply orb_false_elim in Hw' as [Ha _].
    cbn [strtok]. rewrite Ha.
    rewrite <- (app_string_empty (String a w)) at 1 2 3.
    rewrite word_of_app by auto.
    rewrite string_drop_past. now rewrite words_next.
Qed.

(** Within [varname] and below the first [INIT_TOKENS] arguments,
    [process_tokens] returns, in the order of the input, what each token
    contributes: the words of its expansion if that holds a blank, and
    the expansion itself if not. *)
Lemma process_tokens_tokens env tokens :
  forallb names_fit tokens = true ->
  length (flat_map (post_process env) tokens) < INIT_TOKENS ->
  process_tokens env tokens = Ok (flat_map (post_process env) tokens).
Proof.
  intros Hfit Hfew. rewrite process_tokens_spec, Hfit. cbv zeta.
  rewrite Nat.mod_small by exact Hfew.
  destruct (Nat.ltb_spec 0 (length (flat_map (post_process env) tokens)))
    as [Hpos|Hzero]; cbn [andb]; [|reflexivity].
  destruct (Nat.eqb_spec (length (flat_map (post_process env) tokens)) 0);
    [lia | reflexivity].
Qed.

(** C1 (token post-processor), at a token list the code does not
    process: one hundred tokens [a] expand to themselves and fill the
    [INIT_TOKENS] slots of [new_tokens]; the end marker is stored at
    [new_tokens[100]], outside the array.  The line [a a ... a ] of one
    hundred words and a final blank brings [shell] there. *)
Theorem process_tokens_hundred_tokens (env : gmap string string) :
  flat_map (post_process env) (replicate 100 "a") = replicate 100 "a"
  /\ process_tokens env (replicate 100 "a") = Undefined "new_tokens"
  /\ parse_input (words_a_blank 100) = Ok (replicate 100 "a")
  /\ forall fk,
       shell_cycle small_fs log_works (words_a_blank 100) fk initial_state
       = Undefined "new_tokens".
Proof.
  assert (Hout : flat_map (post_process env) (replicate 100 "a")
                 = replicate 100 "a").
  { assert (Hone : post_process env "a" = ["a"]).
    { unfold post_process.
      destruct (no_dollar_expand env "a" eq_refl) as [_ ->]. reflexivity. }
    generalize 100. intros n. induction n as [|n IH]; [reflexivity|].
    cbn [replicate flat_map]. now rewrite Hone, IH. }
  split; [exact Hout|]. split; [|split].
  - rewrite process_tokens_spec, Hout.
    replace (forallb names_fit (replicate 100 "a")) with true
      by (vm_compute; reflexivity).
    vm_compute. reflexivity.
  - vm_compute. reflexivity.
  - intros fk. vm_compute. reflexivity.
Qed.

(** ** Built-in [echo] *)

Lemma echo_loop_ok env args : forall buffer,
  forallb names_fit args = true ->
  String.length buffer
    + String.length (join_blank (map (expand env) args)) + 1 <= MAX_LINE ->
  echo_loop env args buffer
  = Ok (buffer +:+ join_blank (map (expand env) args)).
Proof.
  induction args as [|arg rest IH]; intros buffer Hfit Hroom.
  - simpl. now rewrite app_string_empty.
  - cbn [forallb] in Hfit. apply andb_prop in Hfit as [Harg Hrest].
    cbn [echo_loop]. rewrite (expand_variable_fits env arg Harg).
    cbn [obind]. unfold strcat_buffer.
    destruct rest as [|next rest].
    + cbn [map join_blank] in *.
      apply Nat.leb_le in Hroom as Hroom'. rewrite Hroom'. reflexivity.
    + change (join_blank (map (expand env) (arg :: next :: rest)))
        with (expand env arg +:+ " " +:+ join_blank (map (expand env) (next :: rest)))
        in *.
      rewrite !length_app_string in Hroom.
      change (String.length " ") with 1 in *.
      assert (H1 : (String.length buffer + String.length (expand env arg) + 1
                    <=? MAX_LINE) = true) by (apply Nat.leb_le; lia).
      rewrite H1. cbn [obind]. rewrite length_app_string.
      assert (H2 : (String.length buffer + String.length (expand env arg)
                    + 1 + 1 <=? MAX_LINE) = true) by (apply Nat.leb_le; lia).
      change (String.length " ") with 1. rewrite H2. cbn [obind].
      rewrite IH; [|exact Hrest|].
      * now rewrite !app_string_assoc.
      * rewrite !length_app_string. change (String.length " ") with 1. lia.
Qed.

(** While the names fit [varname] and the text fits [buffer], [echo]
    prints the expansions of its arguments, one blank between
    neighbours, and one newline; without arguments it prints nothing. *)
Lemma echo_prints args st :
  forallb names_fit args = true ->
  String.length (join_blank (map (expand (environment st)) args)) < MAX_LINE ->
  builtin_echo args st =
    Ok (match args with
        | [] => st
        | _ :: _ =>
            emit (Stdout (join_blank (map (expand (environment st)) args)
                          +:+ newline)) st
        end).
Proof.
  intros Hfit Hroom. destruct args as [|arg rest]; [reflexivity|].
  unfold builtin_echo. rewrite echo_loop_ok; [reflexivity | exact Hfit|].
  change (String.length "") with 0. lia.
Qed.

(** C6 (built-in echo), at a command the code does not print: after
    [export X=aaa...a] with 600 letters, the argument of [echo $X$X]
    expands to 1200 characters, and [strcat] copies them into
    [char buffer[1024]], beyond its end. *)
Theorem echo_long_value (fk : fork_result) :
  String.length export_long < MAX_LINE
  /\ shell small_fs log_works [Line export_long fk; Line "echo $X$X" fk]
       initial_state = Undefined "buffer".
Proof.
  split; [apply Nat.ltb_lt; vm_compute; reflexivity|].
  vm_compute. reflexivity.
Qed.

(** ** Reaper *)

Lemma diagnostics_app t u : diagnostics (t ++ u) = diagnostics t ++ diagnostics u.
Proof. apply List.filter_app. Qed.

Section Reaper.

Context (log_answers : nat -> log_io).

Lemma reap_loop_next st :
  reap_loop log_answers st =
    let '(r, status, st') := waitpid_any_nohang st in
    if (0 <? r)%Z then reap_loop log_answers (log_termination log_answers st')
    else st'.
Proof.
  rewrite reap_loop_equation_1.
  destruct (inspect (waitpid_any_nohang st)) as [[[r status] st'] Hw].
  simpl. rewrite Hw. now destruct (0 <? r)%Z.
Qed.

(** What holds before the loop of [on_child_exit] and is kept by each
    [waitpid] and each attempt to log, holds after the loop. *)
Lemma reap_loop_preserves (P : shell_state -> Prop) :
  (forall st r status st',
      waitpid_any_nohang st = (r, status, st') -> P st -> P st') ->
  (forall st, P st -> P (log_termination log_answers st)) ->
  forall st, P st -> P (reap_loop log_answers st).
Proof.
  intros Hwait Hlog.
  assert (Hall : forall n st, length (children st) < n -> P st ->
                              P (reap_loop log_answers st)).
  { induction n as [|n IH]; intros st Hn HP; [lia|].
    rewrite reap_loop_next.
    destruct (waitpid_any_nohang st) as [[r status] st'] eqn:Hw.
    destruct (0 <? r)%Z eqn:Hpos.
    - apply IH; [|eapply Hlog, Hwait; eassumption].
      rewrite log_termination_children.
      pose proof (waitpid_any_reaps st r status st' Hw Hpos). lia.
    - eapply Hwait; eassumption. }
  intros st. apply (Hall (S (length (children st)))). lia.
Qed.

Lemma untouched_refl st : untouched st st.
Proof. repeat split. Qed.

Lemma untouched_trans st1 st2 st3 :
  untouched st1 st2 -> untouched st2 st3 -> untouched st1 st3.
Proof.
  intros (E1 & C1 & D1 & O1) (E2 & C2 & D2 & O2).
  repeat split; congruence.
Qed.

Lemma waitpid_any_untouched st r status st' :
  waitpid_any_nohang st = (r, status, st') -> untouched st st'.
Proof.
  unfold waitpid_any_nohang. cbn [children emit].
  assert (Hemit : untouched st (emit (Waitpid (-1) WNOHANG) st)).
  { repeat split; cbn [trace emit]; unfold diagnostics;
      now rewrite List.filter_app, app_nil_r. }
  destruct (take_ended (children st)) as [[c rest]|].
  - intros [= <- <- <-]. exact Hemit.
  - destruct (children st); intros [= <- <- <-]; exact Hemit.
Qed.

Lemma log_termination_untouched st :
  untouched st (log_termination log_answers st).
Proof.
  unfold log_termination.
  destruct (open_log _); [|repeat split].
  destruct (write_errno _), (close_errno _); repeat split.
Qed.

Lemma on_child_exit_untouched st : untouched st (on_child_exit log_answers st).
Proof.
  unfold on_child_exit. cbv zeta.
  apply (untouched_trans _ (reap_loop log_answers st)); [|repeat split].
  apply (reap_loop_preserves (untouched st)).
  - intros st1 r status st2 Hw H1.
    eapply untouched_trans; [exact H1 | eapply waitpid_any_untouched, Hw].
  - intros st1 H1.
    eapply untouched_trans; [exact H1 | apply log_termination_untouched].
  - apply untouched_refl.
Qed.

Lemma sigchld_untouched p st : untouched st (sigchld log_answers p st).
Proof.
  unfold sigchld.
  eapply untouched_trans; [|apply on_child_exit_untouched]. repeat split.
Qed.

End Reaper.

(** The loop of the handler alone does change [errno]: the last
    [waitpid] leaves ECHILD, a failed [open] leaves its own error. *)
Example reap_loop_changes_errno :
  errno initial_state = 0%Z
  /\ errno (reap_loop log_works initial_state) = ECHILD
  /\ errno (log_termination log_denied one_ended_child) = EACCES.
Proof. repeat split. Qed.

(** C8 (Reaper): when [on_child_exit] returns, [errno] has the value it
    had when the handler was entered, whatever children were collected
    and whatever the attempts to write log.txt answered; so it is after
    any number of children have ended and their signals were handled. *)
Theorem on_child_exit_preserves_errno
  (log_answers : nat -> log_io) (st : shell_state) :
  errno (on_child_exit log_answers st) = errno st
  /\ forall ended_children,
       errno (fold_left (fun s p => sigchld log_answers p s) ended_children st)
       = errno st.
Proof.
  split; [reflexivity|].
  intros ended_children. revert st.
  induction ended_children as [|p ps IH]; intros st; [reflexivity|].
  cbn [fold_left]. now rewrite IH.
Qed.

(** ** Process launcher *)

(** [WIFSIGNALED] holds exactly for the termination signals 1 to 126. *)
Lemma WIFSIGNALED_range status :
  WIFSIGNALED status = true <-> (1 <= WTERMSIG status <= 126)%Z.
Proof.
  unfold WIFSIGNALED, WTERMSIG, signed_char.
  assert (Hr : (0 <= Z.land status 127 < 128)%Z).
  { change 127%Z with (Z.ones 7). rewrite Z.land_ones by lia.
    apply Z.mod_pos_bound. reflexivity. }
  set (t := Z.land status 127) in *.
  assert (Hb : Z.land (t + 1) 255 = (t + 1)%Z).
  { change 255%Z with (Z.ones 8). rewrite Z.land_ones by lia.
    apply Z.mod_small. lia. }
  rewrite Hb. rewrite Z.ltb_lt.
  destruct (Z.leb_spec 128 (t + 1)) as [Hbig|Hsmall].
  - replace (t + 1 - 256)%Z with (-128)%Z by lia.
    change (Z.shiftr (-128) 1) with (-64)%Z. lia.
  - rewrite Z.shiftr_div_pow2 by lia. change (2 ^ 1)%Z with 2%Z.
    Z.div_mod_to_equations. lia.
Qed.

(** The status of a child that left through [exit(code)] is not
    [WIFSIGNALED]; the status of a child killed by signal [sig], with or
    without a core dump, is, and [WTERMSIG] is [sig]. *)
Lemma wait_status_kinds :
  (forall code, (0 <= code < 256)%Z -> WIFSIGNALED (Z.shiftl code 8) = false)
  /\ (forall sig core, (1 <= sig <= 126)%Z -> core = 0%Z \/ core = 128%Z ->
        WIFSIGNALED (Z.lor sig core) = true /\ WTERMSIG (Z.lor sig core) = sig).
Proof.
  split.
  - intros code Hcode.
    destruct (WIFSIGNALED (Z.shiftl code 8)) eqn:H; [|reflexivity].
    apply WIFSIGNALED_range in H. unfold WTERMSIG in H.
    change 127%Z with (Z.ones 7) in H. rewrite Z.land_ones in H by lia.
    rewrite Z.shiftl_mul_pow2 in H by lia.
    replace (code * 2 ^ 8)%Z with (code * 2 * 2 ^ 7)%Z in H by (cbn; lia).
    rewrite Z.mod_mul in H by (cbn; lia). lia.
  - intros sig core Hsig Hcore.
    assert (Hterm : WTERMSIG (Z.lor sig core) = sig).
    { unfold WTERMSIG. rewrite Z.land_lor_distr_l.
      assert (Hs : Z.land sig 127 = sig).
      { change 127%Z with (Z.ones 7). rewrite Z.land_ones by lia.
        apply Z.mod_small. cbn. lia. }
      rewrite Hs. destruct Hcore as [->| ->]; cbn; now rewrite Z.lor_0_r. }
    split; [|exact Hterm]. apply WIFSIGNALED_range. lia.
Qed.

Section Launcher.

Context (log_answers : nat -> log_io).

Lemma take_child_fresh p cs c :
  take_child p cs = None -> pid c = p ->
  take_child p (cs ++ [c]) = Some (c, cs).
Proof.
  intros Hfresh <-. induction cs as [|d cs IH]; simpl in *.
  - now rewrite Pos.eqb_refl.
  - destruct (Pos.eqb (pid d) (pid c)); [discriminate Hfresh|].
    destruct (take_child (pid c) cs) as [[z rest]|]; [discriminate Hfresh|].
    now rewrite IH.
Qed.

(** When the loop of the handler is left, no terminated child is left
    in the table. *)
Lemma reap_loop_none_ended st :
  take_ended (children (reap_loop log_answers st)) = None.
Proof.
  assert (Hall : forall n st, length (children st) < n ->
            take_ended (children (reap_loop log_answers st)) = None).
  { induction n as [|n IH]; intros s Hn; [lia|].
    rewrite reap_loop_next.
    destruct (waitpid_any_nohang s) as [[r status] s'] eqn:Hw.
    destruct (0 <? r)%Z eqn:Hpos.
    - apply IH. rewrite log_termination_children.
      pose proof (waitpid_any_reaps s r status s' Hw Hpos). lia.
    - unfold waitpid_any_nohang in Hw. cbn [children emit] in Hw.
      destruct (take_ended (children s)) as [[c rest]|] eqn:Hz.
      + injection Hw as <- _ _. discriminate Hpos.
      + destruct (children s) eqn:Hcs; injection Hw as _ _ <-;
          cbn [children set_errno emit]; now rewrite ?Hcs. }
  apply (Hall (S (length (children st)))). lia.
Qed.

Lemma take_ended_all_ended p cs : forall c rest,
  take_ended cs = Some (c, rest) -> all_ended p cs -> all_ended p rest.
Proof.
  induction cs as [|d cs IH]; intros c rest H Hall; simpl in H; [discriminate|].
  apply Forall_cons in Hall as [Hd Hall].
  destruct (ended d) eqn:Hended; [now injection H as _ <-|].
  destruct (take_ended cs) as [[z rest']|]; [|discriminate].
  injection H as _ <-. apply Forall_cons. split.
  - intros Hpid. specialize (Hd Hpid). congruence.
  - eapply IH; [reflexivity | exact Hall].
Qed.

Lemma none_ended_no_child p cs :
  take_ended cs = None -> all_ended p cs -> take_child p cs = None.
Proof.
  induction cs as [|d cs IH]; intros Hnone Hall; simpl in *; [reflexivity|].
  apply Forall_cons in Hall as [Hd Hall].
  destruct (ended d) eqn:Hended; [discriminate|].
  destruct (Pos.eqb_spec (pid d) p) as [Hpid|_].
  - specialize (Hd Hpid). congruence.
  - destruct (take_ended cs) as [[z rest]|]; [discriminate|].
    now rewrite IH.
Qed.

(** After the SIGCHLD of child [p] the process has no child [p] left. *)
Lemma sigchld_collects p st :
  take_child p (children (sigchld log_answers p st)) = None.
Proof.
  unfold sigchld, on_child_exit. cbv zeta. cbn [children set_errno].
  apply none_ended_no_child; [apply reap_loop_none_ended|].
  apply (reap_loop_preserves log_answers (fun s => all_ended p (children s))).
  - intros s r status s' Hw Hs. unfold waitpid_any_nohang in Hw.
    cbn [children emit] in Hw.
    destruct (take_ended (children s)) as [[c rest]|] eqn:Hz.
    + injection Hw as _ _ <-. cbn [children set_children].
      eapply take_ended_all_ended; eassumption.
    + destruct (children s) eqn:Hcs; injection Hw as _ _ <-;
        cbn [children set_errno emit]; now rewrite ?Hcs.
  - intros s Hs. now rewrite log_termination_children.
  - cbn [children set_children]. unfold all_ended.
    apply Forall_forall. intros c Hc Hpid.
    apply list_elem_of_In, in_map_iff in Hc as (d & <- & _).
    unfold mark_ended in *. destruct (Pos.eqb_spec (pid d) p); [reflexivity|].
    contradiction.
Qed.

(** The handler only adds to the trace. *)
Lemma on_child_exit_extends st :
  exists later, trace (on_child_exit log_answers st) = trace st ++ later.
Proof.
  unfold on_child_exit. cbv zeta. cbn [trace set_errno].
  apply (reap_loop_preserves log_answers
           (fun s => exists later, trace s = trace st ++ later)).
  - intros s r status s' Hw (later & Hs). unfold waitpid_any_nohang in Hw.
    cbn [children emit] in Hw.
    assert (Hemit : exists later',
              trace (emit (Waitpid (-1) WNOHANG) s) = trace st ++ later').
    { exists (later ++ [Waitpid (-1) WNOHANG]). cbn [trace emit].
      now rewrite Hs, <- app_assoc. }
    destruct (take_ended (children s)) as [[c rest]|].
    + injection Hw as _ _ <-. exact Hemit.
    + destruct (children s); injection Hw as _ _ <-; exact Hemit.
  - intros s Hs. unfold log_termination.
    destruct (open_log _); [|exact Hs].
    destruct (write_errno _), (close_errno _); exact Hs.
  - exists []. now rewrite app_nil_r.
Qed.

(** The foreground launch whose wait returns the status of the child:
    the launcher's next system call is the blocking [waitpid] for that
    child, and the message naming the signal is written exactly when
    the status is that of a child killed by a signal. *)
Lemma foreground_launch tokens st p status :
  take_child p (children st) = None ->
  let st' := execute_command log_answers tokens false (Forked p status false) st in
  (exists later, trace st' = trace st ++ Waitpid (Zpos p) 0 :: later)
  /\ diagnostics (trace st')
     = diagnostics (trace st)
       ++ (if WIFSIGNALED status then [Stderr (signal_message status)] else []).
Proof.
  intros Hfresh. cbv zeta. unfold execute_command, waitpid_child.
  cbn [children emit set_children].
  rewrite (take_child_fresh p (children st)
             {| pid := p; wstatus := status; ended := false |} Hfresh eq_refl).
  cbn [wstatus].
  set (waited := set_children (children st)
                   (emit (Waitpid (Z.pos p) 0) (set_children _ st))).
  pose proof (on_child_exit_untouched log_answers waited) as (_ & _ & Hd & _).
  destruct (on_child_exit_extends waited) as (later & Hlater).
  assert (Hwaited : trace waited = trace st ++ [Waitpid (Z.pos p) 0])
    by reflexivity.
  assert (Hbase : diagnostics (trace waited) = diagnostics (trace st)).
  { rewrite Hwaited, diagnostics_app. cbn. now rewrite app_nil_r. }
  change (Z.pos p =? -1)%Z with false. cbv iota.
  destruct (WIFSIGNALED status).
  - cbn [trace emit]. split.
    + exists (later ++ [Stderr (signal_message status)]).
      now rewrite Hlater, Hwaited, <- !app_assoc.
    + rewrite diagnostics_app, Hd, Hbase. reflexivity.
  - split.
    + exists later. now rewrite Hlater, Hwaited, <- app_assoc.
    + now rewrite Hd, Hbase, app_nil_r.
Qed.

(** The foreground launch whose child was collected by the handler
    before the wait: the wait fails, and that is what is reported. *)
Lemma foreground_launch_early tokens st p status :
  diagnostics
    (trace (execute_command log_answers tokens false (Forked p status true) st))
  = diagnostics (trace st) ++ [Perror "waitpid" ECHILD].
Proof.
  unfold execute_command, waitpid_child. cbn [children emit].
  set (st1 := set_children _ st).
  rewrite (sigchld_collects p st1).
  change (-1 =? -1)%Z with true. cbv iota. unfold perror.
  cbn [trace emit errno set_errno]. rewrite !diagnostics_app.
  destruct (sigchld_untouched log_answers p st1) as (_ & _ & -> & _).
  cbn. now rewrite app_nil_r.
Qed.

(** The background launch: no wait, and nothing on standard error,
    whenever the child ends. *)
Lemma background_launch tokens st p status early :
  let st' := execute_command log_answers tokens true (Forked p status early) st in
  diagnostics (trace st') = diagnostics (trace st)
  /\ (early = false ->
      st' = set_children
              (children st ++ [{| pid := p; wstatus := status; ended := false |}])
              st).
Proof.
  cbv zeta. unfold execute_command. split; [|now intros ->].
  destruct early; [|reflexivity].
  now destruct (sigchld_untouched log_answers p
                  (set_children
                     (children st
                      ++ [{| pid := p; wstatus := status; ended := false |}]) st))
    as (_ & _ & Hd & _).
Qed.

End Launcher.

(** C7 (process launcher), at a run the code does not report: the child
    of the foreground command [sleep 5] is killed by signal 9, and its
    SIGCHLD is handled before the launcher calls [waitpid].  The handler
    waits for any child, so it collects the foreground child and logs
    it; the launcher's own wait for that child then fails with ECHILD,
    and what is written to standard error is the diagnostic of the
    failed wait: signal 9 is never named.  When the launcher's wait
    collects the same child the signal is named; and whatever the child
    and its status, a handler that runs first leaves the launcher with
    the failed wait. *)
Theorem foreground_child_collected_early :
  WIFSIGNALED 9 = true /\ WTERMSIG 9 = 9%Z
  /\ (let st' := execute_command log_works ["sleep"; "5"] false
                   (Forked 7 9 true) initial_state in
      diagnostics (trace st') = [Perror "waitpid" ECHILD]
      /\ log st' = [log_message]
      /\ children st' = [])
  /\ shell_cycle small_fs log_works "sleep 5" (Forked 7 9 true) initial_state
     = Ok (Prompt
             (execute_command log_works ["sleep"; "5"] false (Forked 7 9 true)
                (prompt initial_state)))
  /\ diagnostics
       (trace (execute_command log_works ["sleep"; "5"] false
                 (Forked 7 9 false) initial_state))
     = [Stderr (signal_message 9)]
  /\ forall log_answers tokens st p status,
       diagnostics
         (trace (execute_command log_answers tokens false
                   (Forked p status true) st))
       = diagnostics (trace st) ++ [Perror "waitpid" ECHILD].
Proof.
  split; [reflexivity|]. split; [reflexivity|].
  split; [vm_compute; repeat split|].
  split; [reflexivity|]. split; [reflexivity|].
  intros log_answers tokens st p status. apply foreground_launch_early.
Qed.

(** What the launcher writes in each of its runs: for a foreground
    command the launcher waits for that very child with a blocking
    [waitpid]; when the wait returns the status of the child, the
    message naming the
    signal number is written to standard error exactly when the status
    is that of a child killed by a signal (signal [sig] gives the number
    [sig]), and a normal exit with any code writes nothing; when the
    wait fails because the handler has collected the child already, the
    failed wait is reported and no signal is named; for a background
    command the launcher does not wait and writes nothing to standard
    error, and neither does the handler that collects the child. *)
Theorem launcher_diagnostics
  (log_answers : nat -> log_io) (tokens : list string) (st : shell_state)
  (p : positive) (status : Z) :
  take_child p (children st) = None ->
  let foreground :=
    execute_command log_answers tokens false (Forked p status false) st in
  ((exists later, trace foreground = trace st ++ Waitpid (Zpos p) 0 :: later)
   /\ diagnostics (trace foreground)
      = diagnostics (trace st)
        ++ (if WIFSIGNALED status then [Stderr (signal_message status)] else [])
   /\ (forall sig core, (1 <= sig <= 126)%Z -> core = 0%Z \/ core = 128%Z ->
         status = Z.lor sig core ->
         diagnostics (trace foreground)
         = diagnostics (trace st)
           ++ [Stderr ("Child terminated abnormally by signal " +:+ pretty sig
                       +:+ newline)])
   /\ (forall code, (0 <= code < 256)%Z -> status = Z.shiftl code 8 ->
         diagnostics (trace foreground) = diagnostics (trace st)))
  /\ diagnostics
       (trace (execute_command log_answers tokens false
                 (Forked p status true) st))
     = diagnostics (trace st) ++ [Perror "waitpid" ECHILD]
  /\ (forall early,
        diagnostics
          (trace (execute_command log_answers tokens true
                    (Forked p status early) st))
        = diagnostics (trace st))
  /\ execute_command log_answers tokens true (Forked p status false) st
     = set_children
         (children st ++ [{| pid := p; wstatus := status; ended := false |}]) st
  /\ (forall q st1,
        diagnostics (trace (sigchld log_answers q st1)) = diagnostics (trace st1)).
Proof.
  intros Hfresh. cbv zeta.
  destruct (foreground_launch log_answers tokens st p status Hfresh)
    as [Hwait Hdiag].
  split; [|split; [|split; [|split]]].
  - split; [exact Hwait|]. split; [exact Hdiag|]. split.
    + intros sig core Hsig Hcore ->. rewrite Hdiag.
      destruct (proj2 wait_status_kinds sig core Hsig Hcore) as [-> Hterm].
      unfold signal_message. now rewrite Hterm.
    + intros code Hcode ->. rewrite Hdiag.
      rewrite (proj1 wait_status_kinds code Hcode). apply app_nil_r.
  - apply foreground_launch_early.
  - intros early. apply (background_launch log_answers tokens st p status early).
  - now apply (background_launch log_answers tokens st p status false).
  - intros q st1. now destruct (sigchld_untouched log_answers q st1) as (_ & _ & Hd & _).
Qed.

Lemma launcher_diagnostics_witness :
  take_child 7 (children initial_state) = None
  /\ diagnostics
       (trace (execute_command log_works ["sleep"; "5"] false
                 (Forked 7 9 false) initial_state))
     = [Stderr (signal_message 9)].
Proof.
  split; [reflexivity|].
  exact (proj1 (proj2 (proj1 (launcher_diagnostics log_works ["sleep"; "5"]
                                initial_state 7 9 eq_refl)))).
Defined.

(** ** Built-ins and their dispatch *)

(** Every token [parse_input] returns fits [current_token]. *)
Lemma parse_loop_token_length input : forall st st',
  parse_loop st input = Ok st' ->
  Forall (fun t => String.length t < MAX_LINE) (tokens st) ->
  Forall (fun t => String.length t < MAX_LINE) (tokens st').
Proof.
  assert (Hfinish : forall st st', finish_token st = Ok st' ->
    Forall (fun t => String.length t < MAX_LINE) (tokens st) ->
    Forall (fun t => String.length t < MAX_LINE) (tokens st')).
  { intros st st'. unfold finish_token, store_token.
    destruct (Nat.ltb_spec (String.length (current_token st)) MAX_LINE);
      [|discriminate].
    destruct (length (tokens st) <? tokens_cap st); [|discriminate].
    intros [= <-] Hall. cbn [tokens]. apply Forall_app. split; [exact Hall|].
    now constructor. }
  induction input as [|c rest IH]; intros st st' Hrun Hall; simpl in Hrun.
  - now injection Hrun as <-.
  - destruct (parse_step st c) as [st1|] eqn:Hstep; [|discriminate].
    cbn [obind] in Hrun. apply (IH st1 st' Hrun).
    unfold parse_step in Hstep.
    destruct (Ascii.eqb c dquote); [now injection Hstep as <-|].
    destruct (is_blank c && negb (in_quotes st)).
    + destruct (0 <? String.length (current_token st)); [|now injection Hstep as <-].
      destruct (finish_token st) as [st2|] eqn:Hfin; [|discriminate].
      injection Hstep as <-. unfold grow_tokens.
      destruct (tokens_cap st2 <=? length (tokens st2)); cbn [tokens];
        exact (Hfinish st st2 Hfin Hall).
    + destruct (String.length (current_token st) <? MAX_LINE); [|discriminate].
      now injection Hstep as <-.
Qed.

Lemma parse_input_token_length input toks :
  parse_input input = Ok toks ->
  Forall (fun t => String.length t < MAX_LINE) toks.
Proof.
  unfold parse_input.
  destruct (parse_loop tokenizer_init input) as [st|] eqn:Hloop; [|discriminate].
  cbn [obind]. pose proof (parse_loop_token_length input _ _ Hloop) as Hall.
  specialize (Hall (List.Forall_nil _)).
  destruct (0 <? String.length (current_token st)).
  - unfold finish_token, store_token.
    destruct (Nat.ltb_spec (String.length (current_token st)) MAX_LINE);
      [|discriminate].
    destruct (length (tokens st) <? tokens_cap st); [|discriminate].
    cbn [obind tokens tokens_cap]. unfold store_sentinel.
    destruct (_ <? _); [|discriminate]. intros [= <-].
    apply Forall_app. split; [exact Hall | now constructor].
  - cbn [obind]. unfold store_sentinel.
    destruct (_ <? _); [|discriminate]. now intros [= <-].
Qed.

Lemma string_take_all n s : String.length s <= n -> string_take n s = s.
Proof.
  revert s. induction n as [|n IH]; intros [|c s] Hlen; simpl in *;
    try reflexivity; [lia|].
  rewrite IH; [reflexivity | lia].
Qed.

Section Builtins.

Context (chdir_to : string -> string -> string + Z).
Context (log_answers : nat -> log_io).

Lemma chdir_or_report_spec path st :
  let st' := chdir_or_report chdir_to path st in
  environment st' = environment st
  /\ match chdir_to (cwd st) path with
     | inl dir => cwd st' = dir /\ trace st' = trace st ++ [Chdir path]
     | inr err =>
         cwd st' = cwd st
         /\ trace st' = trace st ++ [Chdir path; Perror "cd" err]
     end.
Proof.
  cbv zeta. unfold chdir_or_report, sys_chdir. cbn [cwd emit].
  destruct (chdir_to (cwd st) path) as [dir|err]; cbn; split; try split;
    try reflexivity.
  now rewrite <- app_assoc.
Qed.

(** [builtin_cd] asks for the directory [cd_path] names, and reports
    that HOME is not set when [cd_path] names none. *)
Lemma builtin_cd_spec args st :
  builtin_cd chdir_to args st =
    match cd_path (environment st) args with
    | Some path => chdir_or_report chdir_to path st
    | None => perror "HOME not set" st
    end.
Proof.
  unfold builtin_cd, cd_path. destruct args as [|arg rest]; [reflexivity|].
  destruct (String.eqb arg "~"); [reflexivity|].
  destruct arg as [|c suffix]; [reflexivity|]. cbn [starts_tilde string_drop].
  destruct (Ascii.eqb c tilde); [|reflexivity].
  now destruct (getenv (environment st) "HOME").
Qed.

Lemma prompt_keeps st :
  environment (prompt st) = environment st /\ cwd (prompt st) = cwd st
  /\ diagnostics (trace (prompt st)) = diagnostics (trace st).
Proof.
  unfold prompt.
  destruct (String.length (cwd st) <? MAX_LINE); cbn [environment cwd trace emit set_errno];
    rewrite diagnostics_app; cbn; now rewrite app_nil_r.
Qed.

(** A line whose first token is a built-in goes to the built-in with
    the tokens of [parse_input]; [process_tokens] is not called. *)
Lemma shell_cycle_builtin input fk st command args :
  parse_input input = Ok (command :: args) ->
  is_builtin command = true ->
  shell_cycle chdir_to log_answers input fk st =
    (do st' <- execute_shell_builtin chdir_to (command :: args) (prompt st);
     Ok (Prompt st')).
Proof.
  intros Hparse Hbuiltin. unfold shell_cycle.
  destruct input as [|c input]; [discriminate Hparse|].
  cbn [String.length Nat.eqb]. rewrite Hparse. cbn [obind].
  rewrite Hbuiltin.
  assert (Hexit : String.eqb command "exit" = false).
  { unfold is_builtin in Hbuiltin.
    destruct (String.eqb_spec command "exit") as [->|]; [discriminate|reflexivity]. }
  now rewrite Hexit.
Qed.

Lemma builtin_cd_environment args st :
  environment (builtin_cd chdir_to args st) = environment st.
Proof.
  rewrite builtin_cd_spec. destruct (cd_path _ _); [|reflexivity].
  apply chdir_or_report_spec.
Qed.

Lemma builtin_echo_environment args st st' :
  builtin_echo args st = Ok st' -> environment st' = environment st.
Proof.
  unfold builtin_echo. destruct args; [now intros [= <-]|].
  destruct (echo_loop _ _ _); [|discriminate]. now intros [= <-].
Qed.

Lemma execute_command_environment tokens background fk st :
  environment (execute_command log_answers tokens background fk st)
  = environment st.
Proof.
  unfold execute_command. destruct fk as [err|p status early]; [reflexivity|].
  set (st1 := set_children _ st).
  assert (H2 : environment (if early then sigchld log_answers p st1 else st1)
               = environment st).
  { destruct early; [|reflexivity].
    now destruct (sigchld_untouched log_answers p st1) as (-> & _). }
  destruct background; [exact H2|].
  unfold waitpid_child. cbn [children emit].
  set (st2 := if early then sigchld log_answers p st1 else st1) in *.
  assert (H3 : forall s, environment s = environment st ->
     environment (if early then s else on_child_exit log_answers s)
     = environment st).
  { intros s Hs. destruct early; [exact Hs|].
    now destruct (on_child_exit_untouched log_answers s) as (-> & _). }
  destruct (take_child p (children st2)) as [[c rest]|].
  - change (Z.pos p =? -1)%Z with false. cbv iota.
    destruct (WIFSIGNALED (wstatus c)); cbn [environment emit]; apply H3;
      exact H2.
  - change (-1 =? -1)%Z with true. cbv iota. unfold perror.
    cbn [environment emit]. apply H3. exact H2.
Qed.

End Builtins.

(** *** The bindings change with [export] only *)

Section Session.

Context (chdir_to : string -> string -> string + Z).
Context (log_answers : nat -> log_io).

Lemma shell_cycle_environment input fk st e :
  no_export_line (Line input fk) = true ->
  shell_cycle chdir_to log_answers input fk st = Ok e ->
  environment (state_of e) = environment st.
Proof.
  unfold no_export_line, shell_cycle.
  destruct (prompt_keeps st) as (Hp & _).
  destruct (String.length input =? 0); [now intros _ [= <-]|].
  destruct (parse_input input) as [[|command args]|]; cbn [obind];
    [now intros _ [= <-] | | discriminate].
  intros Hne. destruct (String.eqb command "exit"); [now intros [= <-]|].
  unfold is_builtin, execute_shell_builtin.
  apply negb_true_iff in Hne. rewrite Hne, orb_false_r.
  destruct (String.eqb command "cd"); cbn [orb obind].
  - intros [= <-]. cbn [state_of]. now rewrite builtin_cd_environment.
  - destruct (String.eqb command "echo"); cbn [obind].
    + destruct (builtin_echo args (prompt st)) as [st'|] eqn:Hecho;
        [|discriminate].
      cbn [obind]. intros [= <-]. cbn [state_of].
      now rewrite (builtin_echo_environment _ _ _ Hecho).
    + destruct (process_tokens _ _) as [processed|]; [|discriminate].
      cbn [obind]. destruct (split_background processed) as [bg argv].
      intros [= <-]. cbn [state_of].
      now rewrite execute_command_environment.
Qed.

(** Whatever lines are read and whatever children end, as long as no
    line is an [export], the bindings stay as they are. *)
Lemma shell_keeps_environment steps : forall st e,
  forallb no_export_line steps = true ->
  shell chdir_to log_answers steps st = Ok e ->
  environment (state_of e) = environment st.
Proof.
  induction steps as [|s steps IH]; intros st e Hno Hrun.
  - now injection Hrun as <-.
  - cbn [forallb] in Hno. apply andb_prop in Hno as [Hs Hrest].
    destruct s as [input fk|p]; cbn [shell] in Hrun.
    + destruct (shell_cycle chdir_to log_answers input fk st) as [e1|] eqn:Hcycle;
        [|discriminate].
      cbn [obind] in Hrun.
      pose proof (shell_cycle_environment input fk st e1 Hs Hcycle) as He1.
      destruct e1 as [st1|st1]; cbn [state_of] in He1.
      * injection Hrun as <-. exact He1.
      * rewrite (IH st1 e Hrest Hrun). exact He1.
    + rewrite (IH _ e Hrest Hrun).
      now destruct (sigchld_untouched log_answers p st) as (-> & _).
Qed.

Lemma shell_cycle_binding name input fk st e :
  keeps_name name (Line input fk) = true ->
  shell_cycle chdir_to log_answers input fk st = Ok e ->
  environment (state_of e) !! name = environment st !! name.
Proof.
  intros Hkeep Hrun.
  destruct (no_export_line (Line input fk)) eqn:Hno.
  { now rewrite (shell_cycle_environment input fk st e Hno Hrun). }
  unfold no_export_line in Hno. unfold keeps_name in Hkeep.
  destruct (parse_input input) as [[|command args]|] eqn:Hparse;
    try discriminate Hno.
  apply negb_false_iff, String.eqb_eq in Hno. subst command.
  rewrite (shell_cycle_builtin chdir_to log_answers input fk st "export" args
             Hparse eq_refl) in Hrun.
  cbn in Hrun. injection Hrun as <-. cbn [state_of].
  destruct (prompt_keeps st) as (Henv & _).
  destruct args as [|arg rest]; [now rewrite <- Henv|].
  cbn [String.eqb] in Hkeep. unfold builtin_export.
  destruct (split_equals arg) as [[var value]|]; [|now rewrite <- Henv].
  unfold setenv.
  destruct (String.eqb var "" || occurs equals var); [now rewrite <- Henv|].
  cbn [environment set_environment]. rewrite Henv.
  apply lookup_insert_ne. apply negb_true_iff, String.eqb_neq in Hkeep.
  exact Hkeep.
Qed.

(** Whatever lines are read and whatever children end, a name keeps its
    binding as long as no line exports that name again. *)
Lemma shell_keeps_binding name steps : forall st e,
  forallb (keeps_name name) steps = true ->
  shell chdir_to log_answers steps st = Ok e ->
  environment (state_of e) !! name = environment st !! name.
Proof.
  induction steps as [|s steps IH]; intros st e Hno Hrun.
  - now injection Hrun as <-.
  - cbn [forallb] in Hno. apply andb_prop in Hno as [Hs Hrest].
    destruct s as [input fk|p]; cbn [shell] in Hrun.
    + destruct (shell_cycle chdir_to log_answers input fk st) as [e1|] eqn:Hcycle;
        [|discriminate].
      cbn [obind] in Hrun.
      pose proof (shell_cycle_binding name input fk st e1 Hs Hcycle) as He1.
      destruct e1 as [st1|st1]; cbn [state_of] in He1.
      * injection Hrun as <-. exact He1.
      * rewrite (IH st1 e Hrest Hrun). exact He1.
    + rewrite (IH _ e Hrest Hrun).
      now destruct (sigchld_untouched log_answers p st) as (-> & _).
Qed.

End Session.

(** ** Built-in [export] *)

Lemma split_equals_spec arg :
  match split_equals arg with
  | Some (name, value) =>
      arg = name +:+ String equals value /\ occurs equals name = false
  | None => occurs equals arg = false
  end.
Proof.
  induction arg as [|c rest IH]; simpl; [reflexivity|].
  destruct (Ascii.eqb_spec c equals) as [->|Hc]; [now split|].
  destruct (split_equals rest) as [[name value]|].
  - destruct IH as [-> Hno]. split; [reflexivity|]. simpl.
    apply Ascii.eqb_neq in Hc. now rewrite Hc.
  - simpl. exact IH.
Qed.

Lemma string_drop_all s : string_drop (String.length s) s = "".
Proof. induction s as [|c s IH]; [reflexivity | exact IH]. Qed.

Lemma name_fits name :
  all_ident name = true -> String.length name < VARNAME_SIZE ->
  names_fit (String dollar name) = true.
Proof.
  intros Hname Hlen. simp names_fit.
  replace (Ascii.eqb dollar dollar) with true by reflexivity. simpl.
  unfold all_ident in Hname. apply String.eqb_eq in Hname. rewrite Hname.
  apply Nat.ltb_lt in Hlen. rewrite Hlen. cbn [andb].
  rewrite string_drop_all. now simp names_fit.
Qed.

(** C4 as it is stated fails for an empty name: [export =v] splits at
    the ['='] into the name [""] and the value [v], [setenv] refuses the
    empty name, and no binding is set. *)
Lemma export_empty_name :
  let st' := builtin_export ["=v"] initial_state in
  split_equals "=v" = Some ("", "v")
  /\ environment st' = environment initial_state
  /\ environment st' !! "" = None
  /\ trace st' = [Perror "export" EINVAL].
Proof. repeat split. Qed.

(** C4 (built-in export), amended: without an argument, or with an
    argument that holds no ['='], [export] reports a usage error and
    leaves the bindings as they are; an argument NAME=VALUE is split at
    its first ['=']; if NAME is empty the system refuses it, an error is
    reported and the bindings stay as they are; otherwise NAME is bound
    to VALUE, and after any later steps of the session that do not
    export NAME again, a lookup of NAME still finds VALUE, so that
    [$NAME] expands to VALUE. *)
Theorem export_sets_binding (st : shell_state) (args : list string) :
  let st' := builtin_export args st in
  match args with
  | [] =>
      environment st' = environment st
      /\ trace st' = trace st ++ [Stderr ("export: missing argument" +:+ newline)]
  | arg :: _ =>
      match split_equals arg with
      | None =>
          occurs equals arg = false
          /\ environment st' = environment st
          /\ trace st'
             = trace st ++ [Stderr ("export: invalid argument" +:+ newline)]
      | Some (name, value) =>
          arg = name +:+ String equals value
          /\ occurs equals name = false
          /\ if String.eqb name "" then
               environment st' = environment st
               /\ trace st' = trace st ++ [Perror "export" EINVAL]
             else
               environment st' = <[name := value]> (environment st)
               /\ trace st' = trace st
               /\ forall chdir_to log_answers steps e,
                    forallb (keeps_name name) steps = true ->
                    shell chdir_to log_answers steps st' = Ok e ->
                    getenv (environment (state_of e)) name = Some value
                    /\ (all_ident name = true ->
                        String.length name < VARNAME_SIZE ->
                        expand_variable (environment (state_of e))
                          (String dollar name) = Ok value)
      end
  end.
Proof.
  cbv zeta. destruct args as [|arg rest]; [now split|].
  unfold builtin_export. pose proof (split_equals_spec arg) as Hsplit.
  destruct (split_equals arg) as [[name value]|]; [|now repeat split].
  destruct Hsplit as [Harg Hno]. split; [exact Harg|]. split; [exact Hno|].
  unfold setenv. rewrite Hno, orb_false_r.
  destruct (String.eqb_spec name "") as [->|Hname]; [now split|].
  split; [reflexivity|]. split; [reflexivity|].
  intros chdir_to log_answers steps e Hsteps Hrun.
  assert (Hget : getenv (environment (state_of e)) name = Some value).
  { unfold getenv. apply String.eqb_neq in Hname. rewrite Hname.
    rewrite (shell_keeps_binding chdir_to log_answers name steps _ e Hsteps Hrun).
    cbn [environment set_environment]. apply lookup_insert_eq. }
  split; [exact Hget|]. intros Hident Hlen.
  rewrite expand_variable_fits by now apply name_fits.
  simp expand. replace (Ascii.eqb dollar dollar) with true by reflexivity.
  simpl. unfold all_ident in Hident. apply String.eqb_eq in Hident.
  rewrite Hident. unfold value_of. rewrite Hget. cbn [default].
  rewrite string_drop_all. simp expand. unfold id.
  now rewrite app_string_empty.
Qed.

Lemma export_sets_binding_witness :
  forallb (keeps_name "FOO") later_steps = true
  /\ match shell small_fs log_works later_steps
             (builtin_export ["FOO=bar"] initial_state) with
     | Ok e => expand_variable (environment (state_of e)) "$FOO" = Ok "bar"
     | Undefined _ => False
     end.
Proof.
  assert (Hsteps : forallb (keeps_name "FOO") later_steps = true)
    by (vm_compute; reflexivity).
  split; [exact Hsteps|].
  destruct (export_sets_binding initial_state ["FOO=bar"])
    as (_ & _ & _ & _ & Hlater).
  destruct (shell small_fs log_works later_steps
              (builtin_export ["FOO=bar"] initial_state)) as [e|w] eqn:Hrun.
  - destruct (Hlater small_fs log_works later_steps e Hsteps Hrun)
      as [_ Hexpand].
    apply Hexpand; [reflexivity|]. apply Nat.ltb_lt. reflexivity.
  - vm_compute in Hrun. discriminate Hrun.
Defined.

(** ** Built-in [cd] *)

(** The argument [~] itself is not a failing change: without HOME,
    [cd ~] falls back to [/], changes the working directory and reports
    nothing, as for no argument. *)
Lemma cd_tilde_without_home :
  let st' := builtin_cd small_fs ["~"] initial_state in
  getenv (environment initial_state) "HOME" = None
  /\ cwd initial_state = "/tmp"
  /\ cwd st' = "/"
  /\ diagnostics (trace st') = [].
Proof. repeat split. Qed.

(** C5 (built-in cd): whenever the change of directory fails,
    because the system refuses the directory or because the argument is
    [~] followed by more while HOME is unset, an error is reported on
    standard error, the working directory and the bindings are what they
    were, and the loop of the shell goes on with the next step.  (The
    argument [~] alone falls back to [/] when HOME is unset.) *)
Theorem cd_failure_keeps_directory
  (chdir_to : string -> string -> string + Z) (st : shell_state)
  (args : list string) :
  cd_change_fails chdir_to st args ->
  let st' := builtin_cd chdir_to args st in
  cwd st' = cwd st
  /\ environment st' = environment st
  /\ (exists prefix err,
        diagnostics (trace st')
        = diagnostics (trace st) ++ [Perror prefix err])
  /\ execute_shell_builtin chdir_to ("cd" :: args) st = Ok st'
  /\ (forall log_answers input fk steps st0,
        st = prompt st0 ->
        parse_input input = Ok ("cd" :: args) ->
        shell chdir_to log_answers (Line input fk :: steps) st0
        = shell chdir_to log_answers steps st').
Proof.
  intros Hfails. cbv zeta.
  assert (Hstate : cwd (builtin_cd chdir_to args st) = cwd st
    /\ exists prefix err,
         diagnostics (trace (builtin_cd chdir_to args st))
         = diagnostics (trace st) ++ [Perror prefix err]).
  { rewrite builtin_cd_spec.
    destruct Hfails as [(path & err & -> & Herr)|(c & suffix & rest & -> & Hhome)].
    - pose proof (chdir_or_report_spec chdir_to path st) as [_ Hch].
      rewrite Herr in Hch. destruct Hch as [Hcwd Htrace]. split; [exact Hcwd|].
      exists "cd", err. rewrite Htrace, diagnostics_app. reflexivity.
    - assert (Hpath : cd_path (environment st)
                        (String tilde (String c suffix) :: rest) = None).
      { unfold cd_path.
        replace (String.eqb (String tilde (String c suffix)) "~") with false
          by (symmetry; apply String.eqb_neq; discriminate).
        cbn [starts_tilde]. rewrite Ascii.eqb_refl. now rewrite Hhome. }
      rewrite Hpath. split; [reflexivity|].
      exists "HOME not set", (errno st). unfold perror. cbn [trace emit].
      rewrite diagnostics_app. reflexivity. }
  destruct Hstate as [Hcwd Hdiag].
  split; [exact Hcwd|]. split; [apply builtin_cd_environment|].
  split; [exact Hdiag|]. split; [reflexivity|].
  intros log_answers input fk steps st0 -> Hparse. cbn [shell].
  rewrite (shell_cycle_builtin chdir_to log_answers input fk st0 "cd" args Hparse eq_refl).
  reflexivity.
Qed.

Lemma cd_failure_keeps_directory_witness :
  cd_change_fails small_fs initial_state ["/does/not/exist"]
  /\ cwd (builtin_cd small_fs ["/does/not/exist"] initial_state) = "/tmp"
  /\ diagnostics (trace (builtin_cd small_fs ["/does/not/exist"] initial_state))
     = [Perror "cd" ENOENT].
Proof.
  assert (Hfails : cd_change_fails small_fs initial_state ["/does/not/exist"]).
  { left. exists "/does/not/exist", ENOENT. split; reflexivity. }
  split; [exact Hfails|].
  destruct (cd_failure_keeps_directory small_fs initial_state
              ["/does/not/exist"] Hfails) as (Hcwd & _ & _ & _).
  split; [exact Hcwd | reflexivity].
Defined.

(** ** Dispatch of the built-ins *)

(** C10 (built-ins take the tokens as typed): a line whose first token
    is [cd], [export] or [echo] goes to the built-in with the tokens of
    the tokenizer, before any post-processing.  [cd] asks the system for
    the directory [cd_path] names, which for an argument that does not
    start with [~] is the argument itself, character for character;
    [export] binds the name to the text after the first ['='] as it is;
    no [$NAME] in them is expanded.  [echo] alone expands: it prints the
    expansions of its arguments. *)
Theorem builtins_use_raw_tokens
  (chdir_to : string -> string -> string + Z) (log_answers : nat -> log_io)
  (input : string) (fk : fork_result) (st : shell_state) (args : list string) :
  (parse_input input = Ok ("cd" :: args) ->
     let st' := builtin_cd chdir_to args (prompt st) in
     shell_cycle chdir_to log_answers input fk st = Ok (Prompt st')
     /\ (forall path, cd_path (environment st) args = Some path ->
           exists later, trace st' = trace (prompt st) ++ Chdir path :: later)
     /\ (forall arg rest, args = arg :: rest -> starts_tilde arg = false ->
           exists later, trace st' = trace (prompt st) ++ Chdir arg :: later))
  /\ (parse_input input = Ok ("export" :: args) ->
        let st' := builtin_export args (prompt st) in
        shell_cycle chdir_to log_answers input fk st = Ok (Prompt st')
        /\ (forall arg rest name value,
              args = arg :: rest -> split_equals arg = Some (name, value) ->
              name <> "" ->
              environment st' = <[name := value]> (environment st)))
  /\ (parse_input input = Ok ("echo" :: args) ->
        shell_cycle chdir_to log_answers input fk st
        = (do st' <- builtin_echo args (prompt st); Ok (Prompt st'))
        /\ (forallb names_fit args = true ->
            String.length (join_blank (map (expand (environment st)) args))
              < MAX_LINE ->
            forall arg rest, args = arg :: rest ->
            builtin_echo args (prompt st)
            = Ok (emit (Stdout (join_blank (map (expand (environment st)) args)
                                +:+ newline)) (prompt st)))).
Proof.
  destruct (prompt_keeps st) as (Henv & Hcwd & _).
  split; [|split].
  - intros Hparse. cbv zeta.
    split; [exact (shell_cycle_builtin chdir_to log_answers input fk st "cd" args
                     Hparse eq_refl)|].
    assert (Hpath : forall path, cd_path (environment st) args = Some path ->
              exists later,
                trace (builtin_cd chdir_to args (prompt st))
                = trace (prompt st) ++ Chdir path :: later).
    { intros path Hpath. rewrite builtin_cd_spec, Henv, Hpath.
      pose proof (chdir_or_report_spec chdir_to path (prompt st)) as [_ Hch].
      destruct (chdir_to (cwd (prompt st)) path); destruct Hch as [_ ->];
        eexists; reflexivity. }
    split; [exact Hpath|].
    intros arg rest -> Hplain. apply Hpath. unfold cd_path.
    assert (Hne : String.eqb arg "~" = false).
    { destruct (String.eqb_spec arg "~") as [->|]; [discriminate|reflexivity]. }
    rewrite Hne, Hplain. f_equal. apply string_take_all.
    pose proof (parse_input_token_length input _ Hparse) as Hall.
    apply Forall_cons in Hall as [_ Hall].
    apply Forall_cons in Hall as [Hlen _]. revert Hlen.
    unfold MAX_LINE. lia.
  - intros Hparse. cbv zeta.
    split; [exact (shell_cycle_builtin chdir_to log_answers input fk st "export"
                     args Hparse eq_refl)|].
    intros arg rest name value -> Hsplit Hname.
    unfold builtin_export. rewrite Hsplit. unfold setenv.
    pose proof (split_equals_spec arg) as Hspec. rewrite Hsplit in Hspec.
    destruct Hspec as [_ Hno]. rewrite Hno, orb_false_r.
    apply String.eqb_neq in Hname. rewrite Hname.
    cbn [environment set_environment]. now rewrite Henv.
  - intros Hparse.
    split; [exact (shell_cycle_builtin chdir_to log_answers input fk st "echo"
                     args Hparse eq_refl)|].
    intros Hfit Hroom arg rest ->.
    rewrite (echo_prints (arg :: rest) (prompt st)); rewrite ?Henv; auto.
Qed.

Lemma builtins_use_raw_tokens_witness :
  parse_input "cd $HOME" = Ok ["cd"; "$HOME"]
  /\ (exists later,
        trace (builtin_cd small_fs ["$HOME"] (prompt state_home))
        = trace (prompt state_home) ++ Chdir "$HOME" :: later)
  /\ parse_input "export A=$B" = Ok ["export"; "A=$B"]
  /\ environment (builtin_export ["A=$B"] (prompt state_home)) !! "A"
     = Some "$B"
  /\ parse_input "echo $B" = Ok ["echo"; "$B"]
  /\ builtin_echo ["$B"] (prompt state_home)
     = Ok (emit (Stdout ("x" +:+ newline)) (prompt state_home)).
Proof.
  split; [reflexivity|]. split.
  { destruct (builtins_use_raw_tokens small_fs log_works "cd $HOME"
                (ForkFailed 0) state_home ["$HOME"]) as (Hcd & _ & _).
    destruct (Hcd eq_refl) as (_ & _ & Hraw).
    exact (Hraw "$HOME" [] eq_refl eq_refl). }
  split; [reflexivity|]. split.
  { destruct (builtins_use_raw_tokens small_fs log_works "export A=$B"
                (ForkFailed 0) state_home ["A=$B"]) as (_ & Hexport & _).
    destruct (Hexport eq_refl) as (_ & Hraw).
    rewrite (Hraw "A=$B" [] "A" "$B" eq_refl eq_refl ltac:(discriminate)).
    reflexivity. }
  split; reflexivity.
Defined.

(** * Further properties of the code

    What the functions do beyond the statements above: the reading of
    the line, the tokens of typed lines, composed expansions, the
    arguments a command receives, the table of children, and what a
    turn of the loop can change. *)

(** ** The tokenizer on typed lines *)

Lemma blank_not_dquote c : is_blank c = true -> Ascii.eqb c dquote = false.
Proof.
  unfold is_blank. intros H. apply orb_prop in H as [H|H];
    apply Ascii.eqb_eq in H; now subst.
Qed.

Lemma parse_loop_blanks input st :
  all_chars is_blank input = true -> current_token st = "" ->
  in_quotes st = false -> parse_loop st input = Ok st.
Proof.
  intros Hall Hcur Hq. induction input as [|c rest IH]; [reflexivity|].
  cbn [all_chars] in Hall. apply andb_prop in Hall as [Hc Hrest].
  cbn [parse_loop]. unfold parse_step.
  rewrite (blank_not_dquote c Hc), Hc, Hq, Hcur. cbn [negb andb obind].
  change (0 <? String.length "") with false. cbv iota. now apply IH.
Qed.

(** X1 (tokenizer and loop, blank line): a line of blanks and tabs only,
    however long, has no token: the turn ends after the prompt and
    nothing else happens. *)
Theorem blank_line_runs_nothing
  (chdir_to : string -> string -> string + Z) (log_answers : nat -> log_io)
  (input : string) (fk : fork_result) (st : shell_state) :
  all_chars is_blank input = true ->
  parse_input input = Ok []
  /\ shell_cycle chdir_to log_answers input fk st = Ok (Prompt (prompt st)).
Proof.
  intros Hall.
  assert (Hparse : parse_input input = Ok []).
  { unfold parse_input.
    now rewrite (parse_loop_blanks input tokenizer_init Hall). }
  split; [exact Hparse|].
  unfold shell_cycle. rewrite Hparse.
  now destruct (String.length input =? 0).
Qed.

Lemma blank_line_runs_nothing_witness :
  all_chars is_blank "  " = true
  /\ shell_cycle small_fs log_works "  " (ForkFailed 0) initial_state
     = Ok (Prompt (prompt initial_state)).
Proof.
  split; [reflexivity|].
  apply (blank_line_runs_nothing small_fs log_works "  " (ForkFailed 0)
           initial_state). reflexivity.
Defined.

Lemma occurs_app c s t : occurs c (s +:+ t) = occurs c s || occurs c t.
Proof.
  induction s as [|d s IH]; [reflexivity|].
  rewrite app_string_cons. cbn [occurs]. now rewrite IH, orb_assoc.
Qed.

(** Outside quotes, a run of characters that are neither blank nor a
    quote joins the open token. *)
Lemma lex_word w : forall cur rest,
  has_blank w = false -> occurs dquote w = false ->
  lex false cur (w +:+ rest) = lex false (cur +:+ w) rest.
Proof.
  induction w as [|c w IH]; intros cur rest Hb Hq.
  - now rewrite app_string_empty.
  - rewrite has_blank_cons in Hb. apply orb_false_elim in Hb as [Hc Hb].
    cbn [occurs] in Hq. apply orb_false_elim in Hq as [Hd Hq].
    rewrite app_string_cons. cbn [lex]. rewrite Hd, Hc. cbn [andb].
    rewrite IH by assumption. now rewrite snoc_app.
Qed.

(** Inside quotes, every character but the quote joins the open token. *)
Lemma lex_quoted text : forall cur rest,
  occurs dquote text = false ->
  lex true cur (text +:+ rest) = lex true (cur +:+ text) rest.
Proof.
  induction text as [|c text IH]; intros cur rest Hq.
  - now rewrite app_string_empty.
  - cbn [occurs] in Hq. apply orb_false_elim in Hq as [Hd Hq].
    rewrite app_string_cons. cbn [lex]. rewrite Hd. cbn [negb].
    rewrite andb_false_r. rewrite IH by assumption. now rewrite snoc_app.
Qed.

Lemma plain_word_parts t :
  plain_word t = true ->
  0 < String.length t /\ has_blank t = false /\ occurs dquote t = false.
Proof.
  unfold plain_word. intros H.
  apply andb_prop in H as [H Hq]. apply andb_prop in H as [He Hb].
  apply negb_true_iff in Hq, Hb, He.
  repeat split; try assumption.
  destruct t; [discriminate He | simpl; lia].
Qed.

Lemma tokenize_join_blank toks :
  forallb plain_word toks = true -> tokenize (join_blank toks) = toks.
Proof.
  unfold tokenize. induction toks as [|t rest IH]; intros Hall; [reflexivity|].
  cbn [forallb] in Hall. apply andb_prop in Hall as [Ht Hrest].
  destruct (plain_word_parts t Ht) as (Hlen & Hb & Hq).
  destruct rest as [|t2 rest].
  - cbn [join_blank]. rewrite <- (app_string_empty t) at 1.
    rewrite lex_word by assumption. cbn [lex]. unfold close_token.
    change ("" +:+ t) with t.
    apply Nat.ltb_lt in Hlen. now rewrite Hlen.
  - change (join_blank (t :: t2 :: rest))
      with (t +:+ String space (join_blank (t2 :: rest))).
    rewrite lex_word by assumption. change ("" +:+ t) with t.
    cbn [lex]. change (Ascii.eqb space dquote) with false.
    change (is_blank space) with true. cbn [negb andb].
    apply Nat.ltb_lt in Hlen. rewrite Hlen.
    specialize (IH Hrest).
    destruct (lex false "" (join_blank (t2 :: rest))) as [done open].
    cbn [app]. now rewrite IH.
Qed.

(** X2 (tokenizer, round trip): fewer than [INIT_TOKENS] words, none
    empty and none holding a blank or a double quote, written on one
    line of fewer than [MAX_LINE] characters with one blank between
    neighbours, are exactly the tokens [parse_input] returns for that
    line. *)
Theorem parse_input_join_blank (toks : list string) :
  forallb plain_word toks = true ->
  length toks < INIT_TOKENS ->
  String.length (join_blank toks) < MAX_LINE ->
  parse_input (join_blank toks) = Ok toks.
Proof.
  intros Hall Hn Hlen.
  pose proof (tokenize_join_blank toks Hall) as Htok.
  destruct (parse_input_tokens (join_blank toks) Hlen) as [H _].
  - now rewrite Htok.
  - now rewrite H, Htok.
Qed.

Lemma parse_input_join_blank_witness :
  forallb plain_word ["ls"; "-l"; "/tmp"] = true
  /\ parse_input "ls -l /tmp" = Ok ["ls"; "-l"; "/tmp"].
Proof.
  split; [reflexivity|].
  apply (parse_input_join_blank ["ls"; "-l"; "/tmp"]);
    [reflexivity | unfold INIT_TOKENS; simpl; lia
     | unfold MAX_LINE; simpl; lia].
Defined.

(** X3 (tokenizer, quotes): the text between two double quotes joins
    the characters typed right before and right after it into one
    token, with its blanks and without the quotes; without the closing
    quote the token ends with the line; and when no character remains
    (a line of two double quotes) there is no token at all. *)
Theorem parse_input_quoted (before text after : string) :
  has_blank before = false -> occurs dquote before = false ->
  occurs dquote text = false ->
  has_blank after = false -> occurs dquote after = false ->
  String.length before + String.length text + String.length after + 2
    < MAX_LINE ->
  parse_input (before +:+ String dquote (text +:+ String dquote after))
  = Ok (close_token (before +:+ text +:+ after))
  /\ parse_input (before +:+ String dquote text)
     = Ok (close_token (before +:+ text)).
Proof.
  intros Hbb Hbq Htq Hab Haq Hlen.
  assert (Hone : forall open, length (close_token open) < INIT_TOKENS).
  { intros open. unfold close_token, INIT_TOKENS.
    destruct (0 <? String.length open); simpl; lia. }
  assert (H1 : tokenize (before +:+ String dquote (text +:+ String dquote after))
               = close_token (before +:+ text +:+ after)).
  { unfold tokenize. rewrite lex_word by assumption.
    change ("" +:+ before) with before. cbn [lex].
    change (Ascii.eqb dquote dquote) with true. cbv iota. cbn [negb].
    rewrite lex_quoted by assumption. cbn [lex].
    change (Ascii.eqb dquote dquote) with true. cbv iota. cbn [negb].
    rewrite <- (app_string_empty after) at 1.
    rewrite lex_word by assumption. cbn [lex app].
    now rewrite app_string_assoc. }
  assert (H2 : tokenize (before +:+ String dquote text)
               = close_token (before +:+ text)).
  { unfold tokenize. rewrite lex_word by assumption.
    change ("" +:+ before) with before. cbn [lex].
    change (Ascii.eqb dquote dquote) with true. cbv iota. cbn [negb].
    rewrite <- (app_string_empty text) at 1.
    rewrite lex_quoted by assumption. now cbn [lex app]. }
  split.
  - destruct (parse_input_tokens
                (before +:+ String dquote (text +:+ String dquote after)))
      as [H _].
    + rewrite !length_app_string. cbn [String.length].
      rewrite length_app_string. cbn [String.length]. lia.
    + rewrite H1. apply Hone.
    + now rewrite H, H1.
  - destruct (parse_input_tokens (before +:+ String dquote text)) as [H _].
    + rewrite !length_app_string. cbn [String.length]. lia.
    + rewrite H2. apply Hone.
    + now rewrite H, H2.
Qed.

Lemma parse_input_quoted_witness :
  parse_input ("a" +:+ String dquote ("b c" +:+ String dquote "d"))
  = Ok ["ab cd"]
  /\ parse_input ("a" +:+ String dquote "b c") = Ok ["ab c"].
Proof.
  apply (parse_input_quoted "a" "b c" "d"); try reflexivity.
  unfold MAX_LINE. simpl. lia.
Defined.

(** ** Reading the line *)

(** [scan_line] splits standard input in two, and what it stores is at
    most [width] characters without a newline. *)
Lemma scan_line_parts width : forall stdin line after,
  scan_line width stdin = (line, after) ->
  stdin = line +:+ after /\ String.length line <= width
  /\ occurs LF line = false.
Proof.
  induction width as [|w IH]; intros stdin line after H.
  - destruct stdin; injection H as <- <-; repeat split; simpl; lia.
  - destruct stdin as [|c rest]; [injection H as <- <-; repeat split; simpl; lia|].
    cbn [scan_line] in H. destruct (Ascii.eqb c LF) eqn:Hc.
    + injection H as <- <-. repeat split. simpl. lia.
    + destruct (scan_line w rest) as [l a] eqn:Hrec. injection H as <- <-.
      destruct (IH rest l a Hrec) as (-> & Hlen & Hno).
      repeat split.
      * simpl. lia.
      * cbn [occurs]. now rewrite Hc, Hno.
Qed.

(** It stops at the newline, at the end of the input, or when the
    field is full. *)
Lemma scan_line_run line : forall width rest,
  occurs LF line = false -> String.length line <= width ->
  String.length line = width \/ rest = "" \/ (exists r, rest = String LF r) ->
  scan_line width (line +:+ rest) = (line, rest).
Proof.
  induction line as [|c line IH]; intros width rest Hno Hlen Hstop.
  - change ("" +:+ rest) with rest. destruct width as [|w].
    + now destruct rest.
    + destruct Hstop as [Hstop|[->|[r ->]]]; [discriminate Hstop| |]; reflexivity.
  - cbn [occurs] in Hno. apply orb_false_elim in Hno as [Hc Hno].
    destruct width as [|w]; [simpl in Hlen; lia|].
    rewrite app_string_cons. cbn [scan_line]. rewrite Hc.
    rewrite (IH w rest); [reflexivity | assumption | simpl in Hlen; lia|].
    destruct Hstop as [Hstop|Hstop]; [left; simpl in Hstop; lia | now right].
Qed.

Lemma c_string_parts buffer :
  String.length (c_string buffer) <= String.length buffer
  /\ occurs NUL (c_string buffer) = false
  /\ (occurs LF buffer = false -> occurs LF (c_string buffer) = false)
  /\ (occurs NUL buffer = false -> c_string buffer = buffer).
Proof.
  induction buffer as [|c rest (Hlen & Hnul & Hlf & Hid)].
  - repeat split; simpl; lia.
  - cbn [c_string]. destruct (Ascii.eqb c NUL) eqn:Hc.
    + repeat split; try (simpl; lia). cbn [occurs]. rewrite Hc. discriminate.
    + split; [simpl; lia|]. split; [cbn [occurs]; now rewrite Hc|].
      split; cbn [occurs]; rewrite ?Hc; intros H;
        apply orb_false_elim in H as [H1 H2].
      * now rewrite H1, Hlf.
      * now rewrite Hid.
Qed.

(** X4 (reading the line): a run of 1 to [MAX_LINE - 1] characters
    without a newline is what [scanf] stores when a newline follows, and
    [getchar] consumes that newline.  When the run fills the field (1023
    characters), [getchar] consumes the character after it whatever it
    is: the 1024th character of a longer line is lost and the rest is
    read as the next line.  Without a NUL in it the stored run is the
    line as typed. *)
Theorem read_input_line (line : string) (c : ascii) (rest : string) :
  occurs LF line = false ->
  0 < String.length line < MAX_LINE ->
  c = LF \/ String.length line = MAX_LINE - 1 ->
  read_input (line +:+ String c rest) = (Some (c_string line), rest)
  /\ (occurs NUL line = false -> c_string line = line).
Proof.
  intros Hno Hlen Hstop. split; [|apply c_string_parts].
  unfold read_input. rewrite scan_line_run.
  - destruct line; [simpl in Hlen; lia | reflexivity].
  - exact Hno.
  - lia.
  - destruct Hstop as [->|Hstop]; [right; right; eauto | now left].
Qed.

Lemma read_input_line_witness :
  read_input ("ls -l" +:+ String LF "pwd") = (Some "ls -l", "pwd")
  /\ read_input (letters 1023 +:+ "bc") = (Some (letters 1023), "c").
Proof.
  split.
  - apply (read_input_line "ls -l" LF "pwd");
      [reflexivity | unfold MAX_LINE; simpl; lia | now left].
  - assert (Hid : c_string (letters 1023) = letters 1023) by now vm_compute.
    rewrite <- Hid at 2.
    apply (read_input_line (letters 1023) "b"%char "c");
      [now vm_compute | unfold MAX_LINE; split; vm_compute; lia | right; now vm_compute].
Defined.

(** X5 (reading the line, bounds): whatever standard input holds, the
    text the loop hands to [parse_input] is shorter than [MAX_LINE] and
    holds no newline and no NUL; so [parse_input] never writes outside
    [current_token], and [tokens] is the only array it can leave. *)
Theorem read_input_bounded (stdin input rest : string) :
  read_input stdin = (Some input, rest) ->
  String.length input < MAX_LINE
  /\ occurs LF input = false /\ occurs NUL input = false
  /\ forall array, parse_input input = Undefined array -> array = "tokens".
Proof.
  unfold read_input. destruct (scan_line (MAX_LINE - 1) stdin) as [line after] eqn:Hscan.
  destruct (scan_line_parts _ _ _ _ Hscan) as (_ & Hlen & Hlf).
  destruct (String.length line =? 0); intros [= <- <-].
  destruct (c_string_parts line) as (Hc & Hnul & Hlf' & _).
  assert (Hfit : String.length (c_string line) < MAX_LINE)
    by (unfold MAX_LINE in *; lia).
  repeat split; auto.
  intros array. rewrite (parse_input_spec _ Hfit).
  destruct (lex false "" (c_string line)) as [done open].
  destruct (_ && _); congruence.
Qed.

Lemma read_input_bounded_witness :
  read_input stdin_exit = (Some "exit 3", "ls" +:+ String LF "")
  /\ String.length "exit 3" < MAX_LINE.
Proof.
  split; [reflexivity|].
  apply (read_input_bounded stdin_exit "exit 3" ("ls" +:+ String LF "")).
  reflexivity.
Defined.

Section Reading.

Context (chdir_to : string -> string -> string + Z).
Context (log_answers : nat -> log_io).

Lemma printed_app t u : printed (t ++ u) = printed t ++ printed u.
Proof. apply List.filter_app. Qed.

Lemma prompt_printed st :
  length (printed (trace (prompt st))) = S (length (printed (trace st))).
Proof.
  unfold prompt. destruct (_ <? _); cbn [trace emit set_errno];
    rewrite printed_app, length_app; simpl; lia.
Qed.

Lemma end_of_input_loop (turns : list turn) : forall st,
  exists st',
    shell_stdin chdir_to log_answers turns "" st = Ok (Prompt st')
    /\ environment st' = environment st /\ cwd st' = cwd st
    /\ diagnostics (trace st') = diagnostics (trace st)
    /\ length (printed (trace st'))
       = length (printed (trace st)) + reads turns.
Proof.
  induction turns as [|[fk|p] turns IH]; intros st.
  - exists st. repeat split. unfold reads. simpl. lia.
  - cbn [shell_stdin]. change (read_input "") with (@None string, "").
    cbv iota beta.
    destruct (IH (prompt st)) as (st' & Hrun & He & Hc & Hd & Hp).
    destruct (prompt_keeps st) as (He' & Hc' & Hd').
    exists st'. split; [exact Hrun|].
    rewrite He, Hc, Hd, Hp, prompt_printed. unfold reads. simpl.
    repeat split; auto; lia.
  - cbn [shell_stdin].
    destruct (IH (sigchld log_answers p st)) as (st' & Hrun & He & Hc & Hd & Hp).
    destruct (sigchld_untouched log_answers p st) as (He' & Hc' & Hd' & Hp').
    exists st'. split; [exact Hrun|].
    unfold printed in *. rewrite He, Hc, Hd, Hp, He', Hc', Hd', Hp'.
    repeat split.
Qed.

(** X6 (loop at the end of the input): once standard input is at its
    end the loop does not stop.  Whatever number of turns is taken,
    [scanf] stores nothing, each turn that reads prints one more prompt,
    the bindings, the directory and standard error stay as they are, and
    [main] has not returned. *)
Theorem end_of_input_never_exits (turns : list turn) (st : shell_state) :
  (exists st',
     shell_stdin chdir_to log_answers turns "" st = Ok (Prompt st')
     /\ environment st' = environment st /\ cwd st' = cwd st
     /\ diagnostics (trace st') = diagnostics (trace st)
     /\ length (printed (trace st'))
        = length (printed (trace st)) + reads turns)
  /\ exists st', main chdir_to log_answers turns "" st = Ok (None, st').
Proof.
  split; [apply end_of_input_loop|].
  unfold main.
  destruct (end_of_input_loop turns (setup_environment chdir_to st))
    as (st1 & -> & _).
  now exists st1.
Qed.

Lemma read_typed_line input rest :
  typed_line input = true ->
  read_input (input +:+ String LF rest) = (Some input, rest).
Proof.
  unfold typed_line. intros H.
  apply andb_prop in H as [H Hnul]. apply andb_prop in H as [H Hlf].
  apply andb_prop in H as [H0 H1].
  apply negb_true_iff in Hnul, Hlf.
  apply Nat.ltb_lt in H0, H1.
  unfold read_input. rewrite scan_line_run;
    [| exact Hlf | unfold MAX_LINE in *; lia | right; right; eauto].
  destruct (c_string_parts input) as (_ & _ & _ & Hid). rewrite (Hid Hnul).
  destruct input; [simpl in H0; lia | reflexivity].
Qed.

Lemma shell_stdin_lines (steps : list step) : forall st,
  forallb typed_step steps = true ->
  shell_stdin chdir_to log_answers (map turn_of steps) (typed steps) st
  = shell chdir_to log_answers steps st.
Proof.
  induction steps as [|[input fk|p] steps IH]; intros st Hall; [reflexivity| |].
  - cbn [forallb typed_step] in Hall. apply andb_prop in Hall as [Hline Hall].
    cbn [map turn_of typed shell_stdin shell].
    rewrite (read_typed_line _ _ Hline).
    destruct (shell_cycle chdir_to log_answers input fk st) as [[st'|st']|];
      cbn [obind]; auto.
  - cbn [forallb typed_step] in Hall.
    cbn [map turn_of typed shell_stdin shell]. now apply IH.
Qed.

(** X8 ([main], [setup_environment] and [exit]): when [parse_input]
    returns the tokens of the first line read and the first of them is
    [exit], then whatever the other tokens are and whatever follows on
    standard input, [main] returns 0 after one prompt and without a
    further turn.  (The whole line is tokenized before [exit] is looked
    for: a line on which [parse_input] leaves [tokens] is not such a
    line.)  By then the bindings are the inherited ones, and
    the directory is the one [chdir] gave for [/], or, when that call
    failed, the inherited directory with the one diagnostic of
    [perror] with the prefix [chdir]. *)
Theorem exit_ends_main (turns : list turn) (stdin input rest : string)
  (fk : fork_result) (args : list string) (st : shell_state) :
  read_input stdin = (Some input, rest) ->
  parse_input input = Ok ("exit" :: args) ->
  let final := prompt (setup_environment chdir_to st) in
  main chdir_to log_answers (Read fk :: turns) stdin st = Ok (Some 0%Z, final)
  /\ environment final = environment st
  /\ match chdir_to (cwd st) "/" with
     | inl dir =>
         cwd final = dir
         /\ diagnostics (trace final) = diagnostics (trace st)
     | inr err =>
         cwd final = cwd st
         /\ diagnostics (trace final)
            = diagnostics (trace st) ++ [Perror "chdir" err]
     end.
Proof.
  intros Hread Hparse. cbv zeta. split.
  - unfold main. cbn [shell_stdin]. rewrite Hread.
    unfold shell_cycle. rewrite Hparse.
    destruct (String.length input =? 0) eqn:Hlen; [|reflexivity].
    apply Nat.eqb_eq in Hlen.
    destruct input; [discriminate Hparse|discriminate Hlen].
  - destruct (prompt_keeps (setup_environment chdir_to st)) as (-> & -> & ->).
    unfold setup_environment, sys_chdir. cbn [cwd emit].
    destruct (chdir_to (cwd st) "/") as [dir|err]; unfold perror;
      cbn [environment cwd trace errno emit set_cwd set_errno];
      rewrite !diagnostics_app; cbn; rewrite ?app_nil_r; auto.
Qed.

End Reading.

Lemma exit_ends_main_witness :
  read_input stdin_exit = (Some "exit 3", "ls" +:+ String LF "")
  /\ main small_fs log_works [Read (ForkFailed 0); Read (ForkFailed 0)]
       stdin_exit initial_state
     = Ok (Some 0%Z, prompt (setup_environment small_fs initial_state)).
Proof.
  split; [reflexivity|].
  apply (exit_ends_main small_fs log_works [Read (ForkFailed 0)] stdin_exit
           "exit 3" ("ls" +:+ String LF "") (ForkFailed 0) ["3"] initial_state);
    reflexivity.
Defined.

(** ** The expander on composed tokens *)

Section Expansion.

Context (env : gmap string string).

Lemma expand_cons c rest :
  expand env (String c rest) =
    if Ascii.eqb c dollar
    then value_of env (name_of rest)
         +:+ expand env (string_drop (String.length (name_of rest)) rest)
    else String c (expand env rest).
Proof. simp expand. now destruct (Ascii.eqb c dollar). Qed.

Lemma names_fit_cons c rest :
  names_fit (String c rest) =
    if Ascii.eqb c dollar
    then (String.length (name_of rest) <? VARNAME_SIZE)
         && names_fit (string_drop (String.length (name_of rest)) rest)
    else names_fit rest.
Proof. simp names_fit. now destruct (Ascii.eqb c dollar). Qed.

Lemma name_of_length s : String.length (name_of s) <= String.length s.
Proof.
  induction s as [|c s IH]; simpl; [lia|]. destruct (is_ident c); simpl; lia.
Qed.

(** A name ends where the first string ends when the second starts
    with no identifier character. *)
Lemma name_of_prefix s t :
  starts_ident t = false -> name_of (s +:+ t) = name_of s.
Proof.
  intros Ht. induction s as [|c s IH].
  - change ("" +:+ t) with t. destruct t as [|d t]; [reflexivity|].
    simpl in *. now rewrite Ht.
  - rewrite app_string_cons. cbn [name_of]. now rewrite IH.
Qed.

Lemma string_drop_prefix n : forall s t,
  n <= String.length s -> string_drop n (s +:+ t) = string_drop n s +:+ t.
Proof.
  induction n as [|n IH]; intros s t Hn.
  - now destruct s.
  - destruct s as [|c s]; [simpl in Hn; lia|].
    rewrite app_string_cons. cbn [string_drop]. apply IH. simpl in Hn. lia.
Qed.

Lemma expand_app n : forall s t,
  String.length s < n -> starts_ident t = false ->
  expand env (s +:+ t) = expand env s +:+ expand env t
  /\ names_fit (s +:+ t) = names_fit s && names_fit t.
Proof.
  induction n as [|n IH]; intros s t Hn Ht; [lia|].
  destruct s as [|c s].
  - change ("" +:+ t) with t. simp expand names_fit. now split.
  - rewrite app_string_cons, !expand_cons, !names_fit_cons.
    rewrite name_of_prefix by assumption.
    rewrite string_drop_prefix by apply name_of_length.
    pose proof (string_drop_length (String.length (name_of s)) s) as Hd.
    simpl in Hn.
    destruct (Ascii.eqb c dollar).
    + destruct (IH (string_drop (String.length (name_of s)) s) t) as [-> ->];
        [lia | assumption|].
      now rewrite app_string_assoc, andb_assoc.
    + destruct (IH s t) as [-> ->]; [lia | assumption|].
      now rewrite app_string_cons.
Qed.

(** X9 (expander, composition): where the second part of a token starts
    with no identifier character (so that no name runs on into it), the
    expansion of the whole is the expansion of the first part followed
    by the expansion of the second, and the whole leaves [varname]
    exactly when one of the parts does. *)
Theorem expand_variable_app (s t : string) :
  starts_ident t = false ->
  expand_variable env (s +:+ t)
  = (do a <- expand_variable env s;
     do b <- expand_variable env t;
     Ok (a +:+ b)).
Proof.
  intros Ht. rewrite !expand_variable_spec.
  destruct (expand_app (S (String.length s)) s t) as [-> ->]; [lia | exact Ht|].
  destruct (names_fit s); [|reflexivity].
  now destruct (names_fit t).
Qed.

Lemma value_of_dollar_free name :
  dollar_free env -> occurs dollar (value_of env name) = false.
Proof.
  intros Hfree. unfold value_of, getenv.
  destruct (String.eqb name ""); [reflexivity|].
  destruct (env !! name) as [value|] eqn:Hv; [|reflexivity].
  exact (Hfree name value Hv).
Qed.

Lemma expand_dollar_free n : forall token,
  String.length token < n -> dollar_free env ->
  occurs dollar (expand env token) = false.
Proof.
  induction n as [|n IH]; intros token Hn Hfree; [lia|].
  destruct token as [|c rest]; [now simp expand|].
  rewrite expand_cons. simpl in Hn.
  pose proof (string_drop_length (String.length (name_of rest)) rest) as Hd.
  destruct (Ascii.eqb c dollar) eqn:Hc.
  - rewrite occurs_app, value_of_dollar_free by assumption.
    apply IH; [lia | assumption].
  - cbn [occurs]. rewrite Hc. apply IH; [lia | assumption].
Qed.

(** X10 (expander, the ['$'] never survives): when no value of the
    environment holds a ['$'], no expansion does: every ['$'] of the
    token is consumed, with or without a name after it. *)
Theorem expand_variable_leaves_no_dollar (token s : string) :
  dollar_free env -> expand_variable env token = Ok s ->
  occurs dollar s = false.
Proof.
  intros Hfree. rewrite expand_variable_spec.
  destruct (names_fit token); [|discriminate].
  intros [= <-].
  apply (expand_dollar_free (S (String.length token))); [lia | exact Hfree].
Qed.

Lemma names_fit_short n : forall token,
  String.length token < n -> String.length token <= VARNAME_SIZE ->
  names_fit token = true.
Proof.
  induction n as [|n IH]; intros token Hn Hlen; [lia|].
  destruct token as [|c rest]; [now simp names_fit|].
  rewrite names_fit_cons. simpl in Hn, Hlen.
  pose proof (string_drop_length (String.length (name_of rest)) rest) as Hd.
  pose proof (name_of_length rest) as Hname.
  destruct (Ascii.eqb c dollar).
  - apply andb_true_intro. split; [apply Nat.ltb_lt; lia | apply IH; lia].
  - apply IH; lia.
Qed.

(** X11 (expander, growth of the result): a token of at most
    [VARNAME_SIZE] characters is expanded whatever the environment
    holds; however long the values are, [result] is grown in time and
    no array is left. *)
Theorem expand_variable_short (token : string) :
  String.length token <= VARNAME_SIZE ->
  expand_variable env token = Ok (expand env token).
Proof.
  intros Hlen. rewrite expand_variable_spec.
  now rewrite (names_fit_short (S (String.length token))) by lia.
Qed.

End Expansion.

Lemma expand_variable_app_witness :
  starts_ident "/x" = false
  /\ expand_variable env_home ("$HOME" +:+ "/x") = Ok ("/root" +:+ "/x").
Proof.
  split; [reflexivity|].
  apply (expand_variable_app env_home "$HOME" "/x"). reflexivity.
Defined.

Lemma expand_variable_leaves_no_dollar_witness :
  dollar_free env_home
  /\ expand_variable env_home "$HOME/x$" = Ok "/root/x"
  /\ occurs dollar "/root/x" = false.
Proof.
  assert (Hfree : dollar_free env_home).
  { apply map_Forall_singleton. reflexivity. }
  split; [exact Hfree|]. split; [reflexivity|].
  apply (expand_variable_leaves_no_dollar env_home "$HOME/x$" "/root/x");
    [exact Hfree | reflexivity].
Defined.

Lemma expand_variable_short_witness :
  String.length "$HOME/x" <= VARNAME_SIZE
  /\ expand_variable env_home "$HOME/x" = Ok "/root/x".
Proof.
  split; [unfold VARNAME_SIZE; simpl; lia|].
  apply (expand_variable_short env_home "$HOME/x").
  unfold VARNAME_SIZE. simpl. lia.
Defined.

(** ** The post-processor: what reaches the command *)

Lemma word_of_no_blank s : has_blank (word_of s) = false.
Proof.
  induction s as [|c s IH]; [reflexivity|].
  cbn [word_of]. destruct (is_blank c) eqn:Hc; [reflexivity|].
  now rewrite has_blank_cons, Hc, IH.
Qed.

(** A word [strtok] returns is not empty and holds no delimiter. *)
Lemma strtok_word save : forall word save',
  strtok save = Some (word, save') -> has_blank word = false /\ word <> "".
Proof.
  induction save as [|c rest IH]; intros word save' H; [discriminate H|].
  cbn [strtok] in H. destruct (is_blank c) eqn:Hc; [now apply (IH _ save')|].
  injection H as <- _. split; [apply (word_of_no_blank (String c rest))|].
  cbn [word_of]. now rewrite Hc.
Qed.

Lemma strtok_blanks s : all_chars is_blank s = true -> strtok s = None.
Proof.
  induction s as [|c s IH]; [reflexivity|].
  cbn [all_chars strtok]. intros H. apply andb_prop in H as [-> H]. now apply IH.
Qed.

Lemma words_no_blank n : forall s,
  String.length s < n ->
  Forall (fun w => has_blank w = false /\ w <> "") (words s).
Proof.
  induction n as [|n IH]; intros s Hn; [lia|].
  rewrite words_next.
  destruct (strtok s) as [[word save']|] eqn:Hnext; [|constructor].
  constructor; [eapply strtok_word, Hnext|].
  apply IH. pose proof (strtok_shorter s word save' Hnext). lia.
Qed.

Lemma post_process_no_blank env token :
  Forall (fun t => has_blank t = false) (post_process env token).
Proof.
  unfold post_process. destruct (has_blank (expand env token)) eqn:Hb.
  - eapply Forall_impl;
      [apply (words_no_blank (S (String.length (expand env token)))); lia|].
    now intros w [Hw _].
  - now repeat constructor.
Qed.

(** X12 (post-processor, no blank reaches the command): whenever
    [process_tokens] returns, no token it returns holds a blank or a
    tab, not even text that was typed between quotes. *)
Theorem process_tokens_no_blank
  (env : gmap string string) (tokens out : list string) :
  process_tokens env tokens = Ok out ->
  Forall (fun t => has_blank t = false) out.
Proof.
  rewrite process_tokens_spec.
  destruct (forallb names_fit tokens); [|discriminate].
  cbv zeta. destruct (_ && _); [discriminate|]. intros [= <-].
  induction tokens as [|token tokens IH]; [constructor|].
  cbn [flat_map]. apply Forall_app. split; [apply post_process_no_blank | exact IH].
Qed.

Lemma process_tokens_no_blank_witness :
  process_tokens env_list ["ls"; "$LIST"; "x y"]
  = Ok ["ls"; "one"; "two"; "x"; "y"]
  /\ Forall (fun t => has_blank t = false) ["ls"; "one"; "two"; "x"; "y"].
Proof.
  split; [reflexivity|].
  apply (process_tokens_no_blank env_list ["ls"; "$LIST"; "x y"]). reflexivity.
Defined.

Lemma plain_tokens_unchanged env tokens :
  forallb plain_token tokens = true ->
  forallb names_fit tokens = true
  /\ flat_map (post_process env) tokens = tokens.
Proof.
  induction tokens as [|token tokens IH]; intros Hall; [now split|].
  cbn [forallb] in Hall. apply andb_prop in Hall as [Ht Hall].
  unfold plain_token in Ht. apply andb_prop in Ht as [Hd Hb].
  apply negb_true_iff in Hd, Hb.
  destruct (no_dollar_expand env token Hd) as [Hfit Hexp].
  destruct (IH Hall) as [Hfits Hflat].
  cbn [forallb flat_map]. rewrite Hfit, Hfits, Hflat.
  unfold post_process. now rewrite Hexp, Hb.
Qed.

(** X13 (post-processor, identity): fewer than [INIT_TOKENS] tokens
    without ['$'], blank and tab are returned as they are, whatever the
    environment holds. *)
Theorem process_tokens_plain (env : gmap string string) (tokens : list string) :
  forallb plain_token tokens = true ->
  length tokens < INIT_TOKENS ->
  process_tokens env tokens = Ok tokens.
Proof.
  intros Hall Hlen.
  destruct (plain_tokens_unchanged env tokens Hall) as [Hfits Hflat].
  rewrite (process_tokens_tokens env tokens Hfits); rewrite Hflat; auto.
Qed.

Lemma process_tokens_plain_witness :
  forallb plain_token ["ls"; "-l"; "/tmp"] = true
  /\ process_tokens env_list ["ls"; "-l"; "/tmp"] = Ok ["ls"; "-l"; "/tmp"].
Proof.
  split; [reflexivity|].
  apply (process_tokens_plain env_list ["ls"; "-l"; "/tmp"]);
    [reflexivity | unfold INIT_TOKENS; simpl; lia].
Defined.

(** X14 (post-processor, empty and blank expansions): a token whose
    expansion is empty stays as one empty argument, while a token whose
    expansion is made of blanks and tabs only contributes no argument
    at all. *)
Theorem process_tokens_empty_or_blank
  (env : gmap string string) (token expanded : string) :
  expand_variable env token = Ok expanded ->
  (expanded = "" -> process_tokens env [token] = Ok [""])
  /\ (expanded <> "" -> all_chars is_blank expanded = true ->
      process_tokens env [token] = Ok []).
Proof.
  rewrite expand_variable_spec.
  destruct (names_fit token) eqn:Hfit; [|discriminate]. intros [= Hexp].
  rewrite process_tokens_spec. cbn [forallb flat_map]. rewrite Hfit.
  cbn [andb]. unfold post_process. rewrite Hexp, app_nil_r. split.
  - now intros ->.
  - intros Hne Hall. destruct expanded as [|c rest]; [contradiction|].
    pose proof Hall as Hall'. cbn [all_chars] in Hall'.
    apply andb_prop in Hall' as [Hc _].
    rewrite has_blank_cons, Hc. cbn [orb].
    now rewrite words_next, (strtok_blanks _ Hall).
Qed.

Lemma process_tokens_empty_or_blank_witness :
  process_tokens env_blank ["$UNSET"] = Ok [""]
  /\ process_tokens env_blank ["$B"] = Ok [].
Proof.
  split.
  - apply (process_tokens_empty_or_blank env_blank "$UNSET" "");
      reflexivity.
  - apply (process_tokens_empty_or_blank env_blank "$B" "  ");
      [reflexivity | discriminate | reflexivity].
Defined.

(** ** The handler and the table of children *)

Section Collecting.

Context (log_answers : nat -> log_io).

Lemma take_ended_some cs : forall c rest,
  take_ended cs = Some (c, rest) ->
  running rest = running cs
  /\ length (List.filter ended cs) = S (length (List.filter ended rest)).
Proof.
  induction cs as [|d cs IH]; intros c rest H; [discriminate H|].
  cbn [take_ended] in H. unfold running. cbn [List.filter].
  destruct (ended d) eqn:Hd.
  - injection H as _ <-. now split.
  - destruct (take_ended cs) as [[z rest']|]; [|discriminate H].
    injection H as _ <-. destruct (IH z rest' eq_refl) as [Hr Hn].
    unfold running in Hr. cbn [List.filter negb]. rewrite Hd. cbn [negb].
    now rewrite Hr, Hn.
Qed.

Lemma take_ended_none cs :
  take_ended cs = None -> running cs = cs /\ List.filter ended cs = [].
Proof.
  induction cs as [|d cs IH]; intros H; [now split|].
  cbn [take_ended] in H. unfold running. cbn [List.filter].
  destruct (ended d) eqn:Hd; [discriminate H|].
  destruct (take_ended cs) as [[z rest']|]; [discriminate H|].
  destruct (IH eq_refl) as [Hr Hn]. unfold running in Hr. cbn [negb].
  now rewrite Hr, Hn.
Qed.

Lemma log_termination_log st :
  log_opens (log_termination log_answers st) = S (log_opens st)
  /\ log (log_termination log_answers st)
     = log st ++ replicate (logged log_answers (log_opens st) 1) log_message.
Proof.
  unfold log_termination. cbn [logged].
  destruct (open_log _); [|now rewrite app_nil_r].
  destruct (write_errno _), (close_errno _); cbn [log_opens log set_log set_errno];
    now rewrite ?app_nil_r.
Qed.

Lemma logged_next from n :
  logged log_answers from (S n)
  = logged log_answers from 1 + logged log_answers (S from) n.
Proof.
  cbn [logged]. destruct (open_log _); [|reflexivity].
  now destruct (write_errno _).
Qed.

(** The loop collects the terminated children, one attempt to write
    log.txt for each, and leaves the running ones. *)
Lemma reap_loop_collects n : forall st,
  length (children st) < n ->
  let st' := reap_loop log_answers st in
  let k := length (List.filter ended (children st)) in
  children st' = running (children st)
  /\ log_opens st' = log_opens st + k
  /\ log st' = log st ++ replicate (logged log_answers (log_opens st) k) log_message.
Proof.
  induction n as [|n IH]; intros st Hn; [lia|]. cbv zeta.
  rewrite reap_loop_next. unfold waitpid_any_nohang. cbn [children emit].
  destruct (take_ended (children st)) as [[c rest]|] eqn:Hz.
  - change (0 <? Z.pos (pid c))%Z with true. cbv iota.
    destruct (take_ended_some _ _ _ Hz) as [Hr Hk].
    pose proof (take_ended_shorter _ _ _ Hz) as Hshort.
    set (st1 := log_termination log_answers _).
    assert (Hc1 : children st1 = rest)
      by (unfold st1; now rewrite log_termination_children).
    destruct (log_termination_log
                (set_children rest (emit (Waitpid (-1) WNOHANG) st)))
      as [Ho Hl].
    fold st1 in Ho, Hl. cbn [log_opens log set_children emit] in Ho, Hl.
    destruct (IH st1) as (Hc & Hopens & Hlog); [rewrite Hc1; lia|].
    rewrite Hc1 in *. rewrite Hc, Hopens, Hlog, Hr, Hk, Ho, Hl.
    rewrite (logged_next (log_opens st) (length (List.filter ended rest))).
    rewrite replicate_add, app_assoc.
    repeat split. lia.
  - destruct (take_ended_none _ Hz) as [Hr Hk]. rewrite Hr, Hk.
    cbn [length logged replicate]. rewrite app_nil_r, Nat.add_0_r.
    destruct (children st) eqn:Hcs; cbn [children log_opens log set_errno emit];
      now rewrite ?Hcs.
Qed.

(** X15 (handler, what it collects): [on_child_exit] removes exactly
    the terminated children from the table and leaves the running ones
    in their order; it opens log.txt once for each child it collects,
    and the log grows by one line for each of those attempts that
    opened and wrote the file, and by nothing else. *)
Theorem on_child_exit_collects (st : shell_state) :
  let st' := on_child_exit log_answers st in
  let k := length (List.filter ended (children st)) in
  children st' = running (children st)
  /\ log_opens st' = log_opens st + k
  /\ log st'
     = log st ++ replicate (logged log_answers (log_opens st) k) log_message.
Proof.
  unfold on_child_exit. cbv zeta. cbn [children log_opens log set_errno].
  apply (reap_loop_collects (S (length (children st)))). lia.
Qed.

Lemma on_child_exit_running st :
  children (on_child_exit log_answers st) = running (children st).
Proof.
  unfold on_child_exit. cbv zeta. cbn [children set_errno].
  apply (reap_loop_collects (S (length (children st)))). lia.
Qed.

Lemma take_child_running p cs :
  take_child p cs = None -> take_child p (running cs) = None.
Proof.
  induction cs as [|d cs IH]; intros H; [reflexivity|].
  cbn [take_child] in H. destruct (Pos.eqb (pid d) p) eqn:Hd; [discriminate H|].
  destruct (take_child p cs) as [[z rest]|]; [discriminate H|].
  unfold running in *. cbn [List.filter].
  destruct (negb (ended d)); [|now apply IH].
  cbn [take_child]. now rewrite Hd, IH.
Qed.

Lemma mark_ended_others p cs :
  take_child p cs = None -> map (mark_ended p) cs = cs.
Proof.
  induction cs as [|d cs IH]; intros H; [reflexivity|].
  cbn [take_child] in H. destruct (Pos.eqb (pid d) p) eqn:Hd; [discriminate H|].
  destruct (take_child p cs) as [[z rest]|]; [discriminate H|].
  cbn [map]. unfold mark_ended at 1. now rewrite Hd, IH.
Qed.

Lemma running_app cs ds : running (cs ++ ds) = running cs ++ running ds.
Proof. apply List.filter_app. Qed.

(** The table after the SIGCHLD of a child that was just added. *)
Lemma sigchld_new_child p status st :
  take_child p (children st) = None ->
  children
    (sigchld log_answers p
       (set_children
          (children st ++ [{| pid := p; wstatus := status; ended := false |}])
          st))
  = running (children st).
Proof.
  intros Hfresh. unfold sigchld. rewrite on_child_exit_running.
  cbn [children set_children]. rewrite map_app, running_app.
  rewrite (mark_ended_others p _ Hfresh). cbn [map]. unfold mark_ended.
  cbn [pid]. rewrite Pos.eqb_refl. unfold running at 2. cbn [List.filter ended negb].
  apply app_nil_r.
Qed.

(** X16 (launcher, no child is left behind): after a foreground command
    whose child is new in the table, the table holds the children that
    were running before and neither the new child nor any terminated
    one, whether the wait or the handler collected it.  A background
    child stays in the table, as the last entry, until its SIGCHLD is
    handled, and is gone after that. *)
Theorem launched_child_is_collected
  (tokens : list string) (st : shell_state) (p : positive) (status : Z) :
  take_child p (children st) = None ->
  (forall early,
     children (execute_command log_answers tokens false (Forked p status early) st)
     = running (children st))
  /\ (let st' := execute_command log_answers tokens true
                   (Forked p status false) st in
      children st'
      = children st ++ [{| pid := p; wstatus := status; ended := false |}]
      /\ children (sigchld log_answers p st') = running (children st)).
Proof.
  intros Hfresh. split; [|split; [reflexivity|]].
  - intros early. unfold execute_command. destruct early.
    + unfold waitpid_child. cbn [children emit].
      rewrite (sigchld_new_child p status st Hfresh).
      rewrite (take_child_running p _ Hfresh).
      change (-1 =? -1)%Z with true. cbv iota. unfold perror.
      cbn [children emit set_errno].
      apply (sigchld_new_child p status st Hfresh).
    + unfold waitpid_child. cbn [children emit set_children].
      rewrite (take_child_fresh p (children st)
                 {| pid := p; wstatus := status; ended := false |} Hfresh eq_refl).
      change (Z.pos p =? -1)%Z with false. cbv iota. cbn [wstatus].
      destruct (WIFSIGNALED status); cbn [children emit];
        now rewrite on_child_exit_running.
  - cbv zeta. unfold execute_command.
    apply (sigchld_new_child p status st Hfresh).
Qed.

(** The launcher's own steps keep the bindings, the directory and
    standard output. *)
Lemma execute_command_quiet tokens background fk st :
  let st' := execute_command log_answers tokens background fk st in
  environment st' = environment st /\ cwd st' = cwd st
  /\ printed (trace st') = printed (trace st).
Proof.
  cbv zeta.
  assert (Hhandler : forall s,
    environment (on_child_exit log_answers s) = environment s
    /\ cwd (on_child_exit log_answers s) = cwd s
    /\ printed (trace (on_child_exit log_answers s)) = printed (trace s)).
  { intros s. destruct (on_child_exit_untouched log_answers s) as (He & Hc & _ & Hp).
    now repeat split. }
  unfold execute_command. destruct fk as [err|p status early].
  { unfold perror. cbn [environment cwd trace emit set_errno].
    rewrite printed_app. cbn. now rewrite app_nil_r. }
  set (st1 := set_children _ st).
  set (st2 := if early then sigchld log_answers p st1 else st1).
  assert (H2 : environment st2 = environment st /\ cwd st2 = cwd st
               /\ printed (trace st2) = printed (trace st)).
  { unfold st2. destruct early; [|now repeat split].
    destruct (sigchld_untouched log_answers p st1) as (He & Hc & _ & Hp).
    now repeat split. }
  destruct background; [exact H2|].
  destruct H2 as (He2 & Hc2 & Hp2).
  unfold waitpid_child. cbn [children emit].
  assert (H3 : forall s,
    environment s = environment st2 -> cwd s = cwd st2 ->
    trace s = trace st2 ++ [Waitpid (Z.pos p) 0] ->
    let s' := if early then s else on_child_exit log_answers s in
    environment s' = environment st /\ cwd s' = cwd st
    /\ printed (trace s') = printed (trace st)).
  { intros s He Hc Ht. cbv zeta.
    assert (Hs : environment s = environment st /\ cwd s = cwd st
                 /\ printed (trace s) = printed (trace st)).
    { rewrite He, Hc, Ht, printed_app. cbn. now rewrite app_nil_r. }
    destruct early; [exact Hs|].
    destruct (Hhandler s) as (-> & -> & ->). exact Hs. }
  destruct (take_child p (children st2)) as [[c rest]|].
  - change (Z.pos p =? -1)%Z with false. cbv iota.
    specialize (H3 (set_children rest (emit (Waitpid (Z.pos p) 0) st2))
                   eq_refl eq_refl eq_refl).
    cbv zeta in H3.
    destruct (WIFSIGNALED (wstatus c)); [|exact H3].
    cbn [environment cwd trace emit]. rewrite printed_app. cbn.
    now rewrite app_nil_r.
  - change (-1 =? -1)%Z with true. cbv iota.
    specialize (H3 (set_errno ECHILD (emit (Waitpid (Z.pos p) 0) st2))
                   eq_refl eq_refl eq_refl).
    cbv zeta in H3. unfold perror.
    cbn [environment cwd trace emit]. rewrite printed_app. cbn.
    now rewrite app_nil_r.
Qed.

(** X17 (launcher, what it cannot change): whatever [fork] answers and
    however the child ends, in the foreground or in the background,
    [execute_command] leaves the bindings, the working directory and
    standard output of the shell as they are; when [fork] fails the
    table of children is unchanged too and the one thing written is the
    diagnostic of [perror] with the prefix [fork]. *)
Theorem execute_command_keeps_shell
  (tokens : list string) (background : bool) (fk : fork_result)
  (st : shell_state) :
  let st' := execute_command log_answers tokens background fk st in
  environment st' = environment st /\ cwd st' = cwd st
  /\ printed (trace st') = printed (trace st)
  /\ (forall err, fk = ForkFailed err ->
        children st' = children st
        /\ trace st' = trace st ++ [Perror "fork" err]).
Proof.
  cbv zeta.
  destruct (execute_command_quiet tokens background fk st) as (He & Hc & Hp).
  split; [exact He|]. split; [exact Hc|]. split; [exact Hp|].
  intros err ->. split; reflexivity.
Qed.

End Collecting.

Lemma launched_child_is_collected_witness :
  take_child 7 (children initial_state) = None
  /\ children (execute_command log_works ["sleep"; "5"] false
                 (Forked 7 0 false) initial_state) = [].
Proof.
  split; [reflexivity|].
  apply (launched_child_is_collected log_works ["sleep"; "5"] initial_state 7 0).
  reflexivity.
Defined.

(** ** The built-ins and the launcher inside the loop *)

(** A character that is not in the line is in none of its tokens. *)
Lemma lex_absent c input : forall q cur,
  occurs c input = false -> occurs c cur = false ->
  Forall (fun t => occurs c t = false) (lex q cur input).1
  /\ occurs c (lex q cur input).2 = false.
Proof.
  induction input as [|d rest IH]; intros q cur Hin Hcur.
  - split; [constructor | exact Hcur].
  - cbn [occurs] in Hin. apply orb_false_elim in Hin as [Hd Hrest].
    assert (Hsnoc : occurs c (snoc cur d) = false)
      by now rewrite occurs_snoc, Hcur, Hd.
    cbn [lex]. destruct (Ascii.eqb d dquote); [now apply IH|].
    destruct (is_blank d && negb q); [|now apply IH].
    destruct (0 <? String.length cur); [|now apply IH].
    destruct (IH q "" Hrest eq_refl) as [Hdone Hopen].
    destruct (lex q "" rest) as [done open]. split; [|exact Hopen].
    constructor; [exact Hcur | exact Hdone].
Qed.

Lemma tokenize_absent c input :
  occurs c input = false ->
  Forall (fun t => occurs c t = false) (tokenize input).
Proof.
  intros Hin. unfold tokenize.
  destruct (lex_absent c input false "" Hin eq_refl) as [Hdone Hopen].
  destruct (lex false "" input) as [done open]. apply Forall_app.
  split; [exact Hdone|]. unfold close_token.
  destruct (0 <? String.length open); now repeat constructor.
Qed.

Lemma total_app l m : total (l ++ m) = total l + total m.
Proof. induction l as [|t l IH]; simpl; [reflexivity | rewrite IH; lia]. Qed.

Lemma join_blank_total l : String.length (join_blank l) = pred (total l).
Proof.
  induction l as [|t l IH]; [reflexivity|].
  destruct l as [|t2 l]; [simpl; lia|].
  change (join_blank (t :: t2 :: l))
    with (t +:+ String space (join_blank (t2 :: l))).
  rewrite length_app_string. cbn [String.length]. rewrite IH. simpl. lia.
Qed.

(** The tokens with their separators are no longer than the line. *)
Lemma lex_total input : forall q cur,
  total (lex q cur input).1 + String.length (lex q cur input).2
  <= String.length cur + String.length input.
Proof.
  induction input as [|d rest IH]; intros q cur; [simpl; lia|].
  cbn [lex String.length].
  destruct (Ascii.eqb d dquote); [specialize (IH (negb q) cur); lia|].
  assert (Hsnoc : total (lex q (snoc cur d) rest).1
                  + String.length (lex q (snoc cur d) rest).2
                  <= String.length cur + S (String.length rest)).
  { specialize (IH q (snoc cur d)). rewrite length_snoc in IH. lia. }
  destruct (is_blank d && negb q); [|exact Hsnoc].
  destruct (0 <? String.length cur); [|specialize (IH q cur); lia].
  specialize (IH q ""). destruct (lex q "" rest) as [done open].
  simpl in *. lia.
Qed.

Lemma tokenize_total input : total (tokenize input) <= S (String.length input).
Proof.
  unfold tokenize. pose proof (lex_total input false "") as H.
  destruct (lex false "" input) as [done open]. rewrite total_app.
  unfold close_token. simpl in *.
  destruct (0 <? String.length open); simpl; lia.
Qed.

Lemma parse_input_tokenize input toks :
  String.length input < MAX_LINE -> parse_input input = Ok toks ->
  toks = tokenize input.
Proof.
  intros Hlen. rewrite (parse_input_spec _ Hlen).
  destruct (lex false "" input) as [done open] eqn:Hlex.
  destruct (_ && _); [discriminate|]. now intros [= <-].
Qed.

Lemma prompt_children st :
  children (prompt st) = children st /\ log (prompt st) = log st.
Proof. unfold prompt. now destruct (_ <? _). Qed.

Lemma split_background_last argv :
  split_background (argv ++ ["&"]) = (true, argv).
Proof.
  unfold split_background. rewrite last_snoc.
  change (String.eqb "&" "&") with true. cbv iota.
  now rewrite List.removelast_last.
Qed.

Lemma split_equals_app name value :
  occurs equals name = false ->
  split_equals (name +:+ String equals value) = Some (name, value).
Proof.
  induction name as [|c name IH]; intros Hno.
  - change ("" +:+ String equals value) with (String equals value).
    cbn [split_equals]. now change (Ascii.eqb equals equals) with true.
  - cbn [occurs] in Hno. apply orb_false_elim in Hno as [Hc Hno].
    rewrite app_string_cons. cbn [split_equals]. now rewrite Hc, IH.
Qed.

(** X18 ([export], round trip): for a name that is not empty and holds
    no ['='], [export NAME=VALUE] binds NAME to VALUE exactly, whatever
    VALUE holds (further ['='] included), leaves every other name as it
    was, and writes nothing; further arguments are ignored. *)
Theorem export_round_trip
  (name value : string) (rest : list string) (st : shell_state) :
  name <> "" -> occurs equals name = false ->
  let st' := builtin_export ((name +:+ String equals value) :: rest) st in
  getenv (environment st') name = Some value
  /\ (forall other, other <> name ->
        getenv (environment st') other = getenv (environment st) other)
  /\ trace st' = trace st.
Proof.
  intros Hname Hno. cbv zeta. unfold builtin_export.
  rewrite (split_equals_app name value Hno). unfold setenv.
  apply String.eqb_neq in Hname. rewrite Hname, Hno. cbn [orb].
  cbn [environment trace set_environment]. unfold getenv. rewrite Hname.
  split; [apply lookup_insert_eq|]. split; [|reflexivity].
  intros other Hother. destruct (String.eqb other ""); [reflexivity|].
  now apply lookup_insert_ne.
Qed.

Lemma export_round_trip_witness :
  getenv (environment (builtin_export ["A=b=c"] initial_state)) "A"
  = Some "b=c".
Proof.
  apply (export_round_trip "A" "b=c" [] initial_state);
    [discriminate | reflexivity].
Defined.

Section Turns.

Context (chdir_to : string -> string -> string + Z).
Context (log_answers : nat -> log_io).

Lemma chdir_or_report_children path st :
  children (chdir_or_report chdir_to path st) = children st
  /\ log (chdir_or_report chdir_to path st) = log st.
Proof.
  unfold chdir_or_report, sys_chdir. cbn [cwd emit].
  now destruct (chdir_to (cwd st) path).
Qed.

Lemma execute_shell_builtin_children tokens st st' :
  execute_shell_builtin chdir_to tokens st = Ok st' ->
  children st' = children st /\ log st' = log st.
Proof.
  unfold execute_shell_builtin. destruct tokens as [|command args];
    [now intros [= <-]|].
  destruct (String.eqb command "cd").
  { intros [= <-]. rewrite builtin_cd_spec.
    destruct (cd_path _ _); [apply chdir_or_report_children | now split]. }
  destruct (String.eqb command "echo").
  { unfold builtin_echo. destruct args; [now intros [= <-]|].
    destruct (echo_loop _ _ _); [|discriminate]. now intros [= <-]. }
  destruct (String.eqb command "export"); [|now intros [= <-]].
  intros [= <-]. unfold builtin_export. destruct args as [|arg args]; [now split|].
  destruct (split_equals arg) as [[var value]|]; [|now split].
  now destruct (setenv _ _ _).
Qed.

(** X19 (built-ins run in the shell itself): a line whose first token
    is [cd], [echo] or [export] never uses the answer of [fork], ends
    with the loop going on, and leaves the table of children and log.txt
    as they are, also when the line ends with [&]. *)
Theorem builtin_line_never_forks
  (input : string) (fk : fork_result) (st : shell_state)
  (command : string) (args : list string) (e : cycle_end) :
  parse_input input = Ok (command :: args) ->
  is_builtin command = true ->
  shell_cycle chdir_to log_answers input fk st = Ok e ->
  (exists st', e = Prompt st' /\ children st' = children st /\ log st' = log st)
  /\ forall fk', shell_cycle chdir_to log_answers input fk' st = Ok e.
Proof.
  intros Hparse Hb Hrun. split.
  - rewrite (shell_cycle_builtin chdir_to log_answers input fk st command args
               Hparse Hb) in Hrun.
    destruct (execute_shell_builtin chdir_to (command :: args) (prompt st))
      as [st'|] eqn:Hexec; [|discriminate Hrun].
    injection Hrun as <-. exists st'. split; [reflexivity|].
    destruct (execute_shell_builtin_children _ _ _ Hexec) as [-> ->].
    apply prompt_children.
  - intros fk'. rewrite <- Hrun.
    now rewrite !(shell_cycle_builtin chdir_to log_answers input _ st command args
                    Hparse Hb).
Qed.

(** X20 (background): when the processed tokens of a command line end
    with the token [&], [fork] succeeds and the child is still running
    as the launcher returns, the turn ends right after the child was
    added to the table: nothing but the prompt is written and no wait
    is made. *)
Theorem background_line_does_not_wait
  (input : string) (st : shell_state) (command : string)
  (args argv : list string) (p : positive) (status : Z) :
  parse_input input = Ok (command :: args) ->
  String.eqb command "exit" = false -> is_builtin command = false ->
  process_tokens (environment st) (command :: args) = Ok (argv ++ ["&"]) ->
  shell_cycle chdir_to log_answers input (Forked p status false) st
  = Ok (Prompt
          (set_children
             (children st ++ [{| pid := p; wstatus := status; ended := false |}])
             (prompt st))).
Proof.
  intros Hparse Hexit Hb Hproc. unfold shell_cycle.
  destruct (String.length input =? 0) eqn:Hlen.
  { apply Nat.eqb_eq in Hlen. destruct input; [discriminate Hparse|discriminate Hlen]. }
  rewrite Hparse. cbn [obind]. rewrite Hexit, Hb.
  destruct (prompt_keeps st) as (-> & _). rewrite Hproc. cbn [obind].
  rewrite split_background_last. unfold execute_command.
  now destruct (prompt_children st) as [-> _].
Qed.

(** X21 ([echo] without references): on a line of fewer than [MAX_LINE]
    characters that holds no ['$'], and for which [parse_input] returns
    [echo] followed by at least one argument, the turn prints the
    arguments as they were tokenized, one blank between neighbours and
    a newline after them; [buffer] cannot overflow in such a turn.  (A
    line on which [parse_input] leaves [tokens] is not such a line.) *)
Theorem echo_without_reference
  (input : string) (fk : fork_result) (st : shell_state)
  (arg : string) (args : list string) :
  String.length input < MAX_LINE -> occurs dollar input = false ->
  parse_input input = Ok ("echo" :: arg :: args) ->
  shell_cycle chdir_to log_answers input fk st
  = Ok (Prompt (emit (Stdout (join_blank (arg :: args) +:+ newline))
                  (prompt st))).
Proof.
  intros Hlen Hno Hparse.
  pose proof (parse_input_tokenize _ _ Hlen Hparse) as Htok.
  pose proof (tokenize_absent dollar input Hno) as Habs.
  pose proof (tokenize_total input) as Htotal.
  rewrite <- Htok in Habs, Htotal.
  apply Forall_cons in Habs as [_ Habs].
  assert (Hexp : forall env l, Forall (fun t => occurs dollar t = false) l ->
            forallb names_fit l = true /\ map (expand env) l = l).
  { intros env l Hl. induction Hl as [|t l Ht Hl [IH1 IH2]]; [now split|].
    destruct (no_dollar_expand env t Ht) as [Hfit Hexp].
    cbn [forallb map]. now rewrite Hfit, IH1, Hexp, IH2. }
  destruct (Hexp (environment (prompt st)) (arg :: args) Habs) as [Hfits Hmap].
  rewrite (shell_cycle_builtin chdir_to log_answers input fk st "echo"
             (arg :: args) Hparse eq_refl).
  cbn [execute_shell_builtin]. change (String.eqb "echo" "cd") with false.
  change (String.eqb "echo" "echo") with true. cbv iota.
  rewrite (echo_prints (arg :: args) (prompt st) Hfits).
  - now rewrite Hmap.
  - rewrite Hmap, join_blank_total.
    change (total ("echo" :: arg :: args)) with (5 + total (arg :: args)) in Htotal.
    lia.
Qed.


End Turns.

Lemma builtin_line_never_forks_witness :
  parse_input "cd /tmp &" = Ok ["cd"; "/tmp"; "&"]
  /\ match shell_cycle small_fs log_works "cd /tmp &" (Forked 7 0 false)
             initial_state with
     | Ok e => exists st', e = Prompt st' /\ children st' = []
     | Undefined _ => False
     end.
Proof.
  split; [reflexivity|].
  destruct (shell_cycle small_fs log_works "cd /tmp &" (Forked 7 0 false)
              initial_state) as [e|] eqn:Hrun;
    [|vm_compute in Hrun; discriminate Hrun].
  destruct (builtin_line_never_forks small_fs log_works "cd /tmp &"
              (Forked 7 0 false) initial_state "cd" ["/tmp"; "&"] e
              eq_refl eq_refl Hrun) as [(st' & He & Hc & _) _].
  exists st'. split; [exact He | exact Hc].
Defined.

Lemma background_line_does_not_wait_witness :
  process_tokens (environment initial_state) ["sleep"; "5"; "&"]
  = Ok (["sleep"; "5"] ++ ["&"])
  /\ shell_cycle small_fs log_works "sleep 5 &" (Forked 7 0 false) initial_state
     = Ok (Prompt
             (set_children [{| pid := 7; wstatus := 0; ended := false |}]
                (prompt initial_state))).
Proof.
  split; [reflexivity|].
  apply (background_line_does_not_wait small_fs log_works "sleep 5 &"
           initial_state "sleep" ["5"; "&"] ["sleep"; "5"] 7 0); reflexivity.
Defined.

Lemma echo_without_reference_witness :
  occurs dollar "echo a  b" = false
  /\ shell_cycle small_fs log_works "echo a  b" (ForkFailed 0) initial_state
     = Ok (Prompt (emit (Stdout ("a b" +:+ newline)) (prompt initial_state))).
Proof.
  split; [reflexivity|].
  apply (echo_without_reference small_fs log_works "echo a  b" (ForkFailed 0)
           initial_state "a" ["b"]);
    [unfold MAX_LINE; simpl; lia | reflexivity | reflexivity].
Defined.


(** ** Whole lines and whole sessions *)

(** Outside quotes no blank joins a token. *)
Lemma has_blank_snoc s c : has_blank (snoc s c) = has_blank s || is_blank c.
Proof.
  unfold has_blank, is_blank. rewrite !occurs_snoc.
  destruct (occurs space s), (occurs tab s), (Ascii.eqb c space),
    (Ascii.eqb c tab); reflexivity.
Qed.

Lemma lex_unquoted input : forall cur,
  occurs dquote input = false -> has_blank cur = false ->
  Forall (fun t => has_blank t = false) (lex false cur input).1
  /\ has_blank (lex false cur input).2 = false.
Proof.
  induction input as [|d rest IH]; intros cur Hin Hcur.
  - split; [constructor | exact Hcur].
  - cbn [occurs] in Hin. apply orb_false_elim in Hin as [Hd Hrest].
    cbn [lex]. rewrite Hd. cbn [negb]. rewrite andb_true_r.
    destruct (is_blank d) eqn:Hb.
    + destruct (0 <? String.length cur); [|now apply IH].
      destruct (IH "" Hrest eq_refl) as [Hdone Hopen].
      destruct (lex false "" rest) as [done open]. split; [|exact Hopen].
      constructor; [exact Hcur | exact Hdone].
    + apply IH; [exact Hrest|]. now rewrite has_blank_snoc, Hcur, Hb.
Qed.

Lemma tokenize_unquoted input :
  occurs dquote input = false ->
  Forall (fun t => has_blank t = false) (tokenize input).
Proof.
  intros Hin. unfold tokenize.
  destruct (lex_unquoted input "" Hin eq_refl) as [Hdone Hopen].
  destruct (lex false "" input) as [done open]. apply Forall_app.
  split; [exact Hdone|]. unfold close_token.
  destruct (0 <? String.length open); now repeat constructor.
Qed.

Section Lines.

Context (chdir_to : string -> string -> string + Z).
Context (log_answers : nat -> log_io).

(** The child of a turn goes on with the argument list the shell
    passes to [execute_command] in that turn. *)
Lemma shell_cycle_child_launch execvp input fk st e :
  shell_cycle_child execvp input st = Ok (Some e) ->
  exists background argv,
    shell_cycle chdir_to log_answers input fk st
    = Ok (Prompt (execute_command log_answers argv background fk (prompt st)))
    /\ child_branch execvp argv (set_children [] (prompt st)) = Ok e.
Proof.
  unfold shell_cycle_child, shell_cycle.
  destruct (String.length input =? 0); [discriminate|].
  destruct (parse_input input) as [[|command args]|]; cbn [obind];
    [discriminate | | discriminate].
  destruct (String.eqb command "exit"); [discriminate|].
  destruct (is_builtin command); [discriminate|].
  destruct (process_tokens _ _) as [processed|]; cbn [obind]; [|discriminate].
  destruct (split_background processed) as [background argv].
  destruct (child_branch execvp argv _) as [e'|] eqn:Hchild; cbn [obind];
    [|discriminate].
  intros [= <-]. now exists background, argv.
Qed.


(** X24 (lines that are always run): a line of fewer than [MAX_LINE]
    characters and fewer than [INIT_TOKENS] tokens that holds neither
    ['$'] nor a double quote never makes a turn of the loop leave an
    array, whatever the command is and whatever [fork] answers. *)
Theorem plain_line_is_safe
  (input : string) (fk : fork_result) (st : shell_state) :
  String.length input < MAX_LINE ->
  occurs dollar input = false -> occurs dquote input = false ->
  length (tokenize input) < INIT_TOKENS ->
  exists e, shell_cycle chdir_to log_answers input fk st = Ok e.
Proof.
  intros Hlen Hdollar Hquote Hn.
  destruct (parse_input_tokens input Hlen Hn) as [Hparse _].
  pose proof (tokenize_absent dollar input Hdollar) as Hnod.
  pose proof (tokenize_unquoted input Hquote) as Hnob.
  pose proof (tokenize_total input) as Htotal.
  assert (Hexp : forall env l, Forall (fun t => occurs dollar t = false) l ->
            forallb names_fit l = true /\ map (expand env) l = l).
  { intros env l Hl. induction Hl as [|t l Ht Hl [IH1 IH2]]; [now split|].
    destruct (no_dollar_expand env t Ht) as [Hfit Hexp].
    cbn [forallb map]. now rewrite Hfit, IH1, Hexp, IH2. }
  unfold shell_cycle. destruct (String.length input =? 0); [eauto|].
  rewrite Hparse. cbn [obind].
  destruct (tokenize input) as [|command args] eqn:Htok; [eauto|].
  destruct (String.eqb command "exit"); [eauto|].
  destruct (is_builtin command) eqn:Hb.
  - unfold execute_shell_builtin.
    destruct (String.eqb command "cd"); [cbn [obind]; eauto|].
    destruct (String.eqb command "echo"); [|destruct (String.eqb command "export");
                                            cbn [obind]; eauto].
    apply Forall_cons in Hnod as [_ Hnod].
    destruct (Hexp (environment (prompt st)) args Hnod) as [Hfits Hmap].
    rewrite (echo_prints args (prompt st) Hfits); [cbn [obind]; eauto|].
    rewrite Hmap, join_blank_total.
    change (total (command :: args))
      with (S (String.length command) + total args) in Htotal. lia.
  - assert (Hplain : forallb plain_token (command :: args) = true).
    { apply forallb_forall. intros t Ht. unfold plain_token.
      rewrite Forall_forall in Hnod, Hnob.
      apply list_elem_of_In in Ht. now rewrite (Hnod t Ht), (Hnob t Ht). }
    destruct (plain_tokens_unchanged (environment (prompt st)) _ Hplain)
      as [Hfits Hflat].
    rewrite (process_tokens_tokens _ _ Hfits); rewrite Hflat; [|exact Hn].
    cbn [obind]. destruct (split_background _). eauto.
Qed.

Lemma builtin_echo_cwd args st st' :
  builtin_echo args st = Ok st' -> cwd st' = cwd st.
Proof.
  unfold builtin_echo. destruct args; [now intros [= <-]|].
  destruct (echo_loop _ _ _); [|discriminate]. now intros [= <-].
Qed.

Lemma builtin_export_cwd args st : cwd (builtin_export args st) = cwd st.
Proof.
  unfold builtin_export. destruct args as [|arg args]; [reflexivity|].
  destruct (split_equals arg) as [[var value]|]; [|reflexivity].
  now destruct (setenv _ _ _).
Qed.

Lemma shell_cycle_directory input fk st e :
  no_cd_line (Line input fk) = true ->
  shell_cycle chdir_to log_answers input fk st = Ok e ->
  cwd (state_of e) = cwd st.
Proof.
  unfold no_cd_line, shell_cycle.
  destruct (prompt_keeps st) as (_ & Hp & _).
  destruct (String.length input =? 0); [now intros _ [= <-]|].
  destruct (parse_input input) as [[|command args]|]; cbn [obind];
    [now intros _ [= <-] | | discriminate].
  intros Hne. destruct (String.eqb command "exit"); [now intros [= <-]|].
  unfold is_builtin, execute_shell_builtin.
  apply negb_true_iff in Hne. rewrite Hne. cbn [orb].
  destruct (String.eqb command "echo"); cbn [orb obind].
  - destruct (builtin_echo args (prompt st)) as [st'|] eqn:Hecho;
      [|discriminate].
    cbn [obind]. intros [= <-]. cbn [state_of].
    now rewrite (builtin_echo_cwd _ _ _ Hecho).
  - destruct (String.eqb command "export"); cbn [obind].
    + intros [= <-]. cbn [state_of]. now rewrite builtin_export_cwd.
    + destruct (process_tokens _ _) as [processed|]; [|discriminate].
      cbn [obind]. destruct (split_background processed) as [bg argv].
      intros [= <-]. cbn [state_of].
      now destruct (execute_command_quiet log_answers argv bg fk (prompt st))
        as (_ & -> & _).
Qed.

Lemma shell_keeps_directory steps : forall st e,
  forallb no_cd_line steps = true ->
  shell chdir_to log_answers steps st = Ok e ->
  cwd (state_of e) = cwd st.
Proof.
  induction steps as [|s steps IH]; intros st e Hno Hrun.
  - now injection Hrun as <-.
  - cbn [forallb] in Hno. apply andb_prop in Hno as [Hs Hrest].
    destruct s as [input fk|p]; cbn [shell] in Hrun.
    + destruct (shell_cycle chdir_to log_answers input fk st) as [e1|] eqn:Hcycle;
        [|discriminate].
      cbn [obind] in Hrun.
      pose proof (shell_cycle_directory input fk st e1 Hs Hcycle) as He1.
      destruct e1 as [st1|st1]; cbn [state_of] in He1.
      * injection Hrun as <-. exact He1.
      * rewrite (IH st1 e Hrest Hrun). exact He1.
    + rewrite (IH _ e Hrest Hrun).
      now destruct (sigchld_untouched log_answers p st) as (_ & -> & _).
Qed.

Lemma shell_cycle_forks_nothing input fk st e :
  forks_nothing (Line input fk) = true ->
  shell_cycle chdir_to log_answers input fk st = Ok e ->
  children (state_of e) = children st.
Proof.
  unfold forks_nothing. intros Hforks Hrun.
  destruct (prompt_children st) as [Hp _].
  destruct (parse_input input) as [[|command args]|] eqn:Hparse.
  - unfold shell_cycle in Hrun. rewrite Hparse in Hrun.
    destruct (String.length input =? 0); now injection Hrun as <-.
  - destruct (String.eqb command "exit") eqn:Hexit.
    + unfold shell_cycle in Hrun. rewrite Hparse in Hrun. cbn [obind] in Hrun.
      rewrite Hexit in Hrun.
      destruct (String.length input =? 0); now injection Hrun as <-.
    + cbn [orb] in Hforks.
      rewrite (shell_cycle_builtin chdir_to log_answers input fk st command args
                 Hparse Hforks) in Hrun.
      destruct (execute_shell_builtin chdir_to (command :: args) (prompt st))
        as [st'|] eqn:Hexec; [|discriminate Hrun].
      injection Hrun as <-. cbn [state_of].
      now destruct (execute_shell_builtin_children _ _ _ _ Hexec) as [-> _].
  - unfold shell_cycle in Hrun. rewrite Hparse in Hrun.
    destruct (String.length input =? 0); [now injection Hrun as <-|].
    discriminate Hrun.
Qed.

Lemma shell_forks_nothing steps : forall st e,
  forallb forks_nothing steps = true -> children st = [] ->
  shell chdir_to log_answers steps st = Ok e ->
  children (state_of e) = [].
Proof.
  induction steps as [|s steps IH]; intros st e Hforks Hnone Hrun.
  - now injection Hrun as <-.
  - cbn [forallb] in Hforks. apply andb_prop in Hforks as [Hs Hrest].
    destruct s as [input fk|p]; cbn [shell] in Hrun.
    + destruct (shell_cycle chdir_to log_answers input fk st) as [e1|] eqn:Hcycle;
        [|discriminate Hrun].
      cbn [obind] in Hrun.
      pose proof (shell_cycle_forks_nothing input fk st e1 Hs Hcycle) as He1.
      rewrite Hnone in He1.
      destruct e1 as [st1|st1]; cbn [state_of] in He1.
      * injection Hrun as <-. exact He1.
      * exact (IH st1 e Hrest He1 Hrun).
    + apply (IH (sigchld log_answers p st) e Hrest); [|exact Hrun].
      unfold sigchld. rewrite on_child_exit_running. cbn [children set_children].
      now rewrite Hnone.
Qed.

(** X7 (reading the line, sessions without commands): for a shell that
    has no children, and a session none of whose lines creates one
    (lines without a token, [exit] lines and built-in lines), when
    every line is not empty, shorter than [MAX_LINE] and free of
    newlines and NULs, typing the lines, each followed by a newline,
    makes the loop on standard input run exactly the session [shell]
    runs on the lines themselves; and no child exists at its end. *)
Theorem shell_stdin_typed (steps : list step) (st : shell_state) :
  forallb typed_step steps = true ->
  forallb forks_nothing steps = true ->
  children st = [] ->
  shell_stdin chdir_to log_answers (map turn_of steps) (typed steps) st
  = shell chdir_to log_answers steps st
  /\ forall e, shell chdir_to log_answers steps st = Ok e ->
       children (state_of e) = [].
Proof.
  intros Htyped Hforks Hnone. split.
  - now apply shell_stdin_lines.
  - intros e. now apply shell_forks_nothing.
Qed.

(** X25 (what a session can change): over a whole session, with
    children ending in between, the bindings stay as they are unless
    some line has [export] as its first token, and the working
    directory stays as it is unless some line has [cd] as its first
    token. *)
Theorem session_changes (steps : list step) (st : shell_state) (e : cycle_end) :
  shell chdir_to log_answers steps st = Ok e ->
  (forallb no_export_line steps = true ->
   environment (state_of e) = environment st)
  /\ (forallb no_cd_line steps = true -> cwd (state_of e) = cwd st).
Proof.
  intros Hrun. split; intros Hno.
  - exact (shell_keeps_environment chdir_to log_answers steps st e Hno Hrun).
  - exact (shell_keeps_directory steps st e Hno Hrun).
Qed.

End Lines.


Lemma plain_line_is_safe_witness :
  String.length "ls  -l /tmp &" < MAX_LINE
  /\ exists e,
       shell_cycle small_fs log_works "ls  -l /tmp &" (Forked 7 0 false)
         initial_state = Ok e.
Proof.
  split; [unfold MAX_LINE; simpl; lia|].
  apply (plain_line_is_safe small_fs log_works "ls  -l /tmp &" (Forked 7 0 false)
           initial_state);
    [unfold MAX_LINE; simpl; lia | reflexivity | reflexivity
     | unfold INIT_TOKENS; vm_compute; lia].
Defined.

Lemma shell_stdin_typed_witness :
  forallb typed_step later_steps = true
  /\ forallb forks_nothing later_steps = true
  /\ shell_stdin small_fs log_works (map turn_of later_steps) (typed later_steps)
       initial_state
     = shell small_fs log_works later_steps initial_state.
Proof.
  split; [reflexivity|]. split; [reflexivity|].
  apply (shell_stdin_typed small_fs log_works later_steps initial_state);
    reflexivity.
Defined.

Lemma session_changes_witness :
  forallb no_cd_line [Line "export A=1" (ForkFailed 0); ChildEnds 3] = true
  /\ match shell small_fs log_works
             [Line "export A=1" (ForkFailed 0); ChildEnds 3] initial_state with
     | Ok e => cwd (state_of e) = "/tmp"
     | Undefined _ => False
     end.
Proof.
  split; [reflexivity|].
  destruct (shell small_fs log_works
              [Line "export A=1" (ForkFailed 0); ChildEnds 3] initial_state)
    as [e|] eqn:Hrun; [|vm_compute in Hrun; discriminate Hrun].
  apply (session_changes small_fs log_works _ initial_state e Hrun). reflexivity.
Defined.
